(** * kazoo: the ZooKeeper lock recipe ([kazoo/recipe/lock.py])

    A shallow embedding of [ZooLock] over an abstract ZooKeeper client,
    together with the properties of acquisition, release and contender
    listing. *)

From Stdlib Require Import String Ascii List Bool Arith ZArith Lia.
From Stdlib Require Import Permutation Sorted DecimalString.
Import ListNotations.
Local Open Scope string_scope.

(** ** Python string and list operations used by the recipe *)

Module Py.

(** [s.startswith(p)] *)
Definition startswith (s p : string) : bool := String.prefix p s.

(** [s.find(sub)] as an offset, [None] when [sub] does not occur. *)
Fixpoint find_opt (sub s : string) : option nat :=
  if String.prefix sub s then Some 0
  else match s with
       | EmptyString => None
       | String _ s' => option_map S (find_opt sub s')
       end.

(** [s.find(sub)]: the lowest index at which [sub] occurs, [-1] if none. *)
Definition find (s sub : string) : Z :=
  match find_opt sub s with
  | Some i => Z.of_nat i
  | None => (-1)%Z
  end.

(** [len(s)] *)
Definition len (s : string) : Z := Z.of_nat (String.length s).

Fixpoint drop (n : nat) (s : string) : string :=
  match n, s with
  | O, _ => s
  | S _, EmptyString => EmptyString
  | S n', String _ s' => drop n' s'
  end.

(** [s[k:]]: a negative start counts from the end of the string and is
    clipped at its beginning; a start past the end gives the empty
    string. *)
Definition slice_from (s : string) (k : Z) : string :=
  if (k <? 0)%Z then drop (Z.to_nat (Z.max 0 (len s + k))) s
  else drop (Z.to_nat k) s.

(** [l.index(x)]: the first position of [x]; [None] stands for the
    [ValueError] raised when [x] is not in [l]. *)
Fixpoint index (x : string) (l : list string) : option nat :=
  match l with
  | [] => None
  | y :: l' => if String.eqb y x then Some 0 else option_map S (index x l')
  end.

(** Truth value of a string: only the empty string is false. *)
Definition truthy (s : string) : bool := negb (String.eqb s "").

(** Truth value of a value that is [None] or a string. *)
Definition truthy_opt (o : option string) : bool :=
  match o with
  | Some s => truthy s
  | None => false
  end.

Section Sort.
Context {A : Type} (key : A -> string).

(** [list.sort(key=...)] is a stable sort under the byte-wise order of
    the keys: an element is placed before the first element of the
    sorted tail whose key is not smaller than its own. *)
Fixpoint insert (x : A) (l : list A) : list A :=
  match l with
  | [] => [x]
  | y :: l' =>
      if String.leb (key x) (key y) then x :: y :: l'
      else y :: insert x l'
  end.

Fixpoint sort (l : list A) : list A :=
  match l with
  | [] => []
  | x :: l' => insert x (sort l')
  end.
End Sort.

End Py.

(** ** Exceptions and computations *)

(** The exceptions the client raises ([kazoo/zkclient.py], the table
    [_ERR_TO_EXCEPTION]); [OtherException] is the generic [Exception] of
    [err_to_exception] for an unlisted error code. *)
Inductive zk_exn : Type :=
  | SystemErrorException | RuntimeInconsistencyException
  | DataInconsistencyException | ConnectionLossException
  | MarshallingErrorException | UnimplementedException
  | OperationTimeoutException | BadArgumentsException
  | ApiErrorException | NoNodeException | NoAuthException
  | BadVersionException | NoChildrenForEphemeralsException
  | NodeExistsException | InvalidACLException | AuthFailedException
  | NotEmptyException | SessionExpiredException
  | InvalidCallbackException | OtherException.

(** What can be raised inside the recipe: an exception of the client, the
    recipe's own [ForceRetryError], or the [TypeError] of [str + None]. *)
Inductive exn : Type :=
  | ZkError (e : zk_exn)
  | ForceRetryError
  | TypeError.

(** The outcome of running a method. [Running] is not a result of the
    program: it says that the loop the method is in has not finished within
    the number of rounds the model was given. *)
Inductive outcome (A : Type) : Type :=
  | Return (a : A)
  | Raise (e : exn)
  | Running.
Arguments Return {A} a.
Arguments Raise {A} e.
Arguments Running {A}.

(** The answer of the client to one request. *)
Inductive reply (A : Type) : Type :=
  | Done (a : A)
  | Failed (e : zk_exn).
Arguments Done {A} a.
Arguments Failed {A} e.

(** The [stat] structure of a node; the recipe only looks at whether it is
    [None]. *)
Definition Stat := nat.

(** The operations of [ZooKeeperClient] the recipe calls, as transitions of
    the state [W] of the client and of the service behind it.
    [zk_create] is [create(path, value, ephemeral=True, sequence=True)],
    [zk_exists] is [exists(path, watch)] and answers the stat of the node or
    [None]; [cond_wait] is what happens to the service while the caller is
    blocked in [condition.wait()]. *)
Class ZkClient (W : Type) : Type := {
  zk_create : string -> string -> W -> reply string * W;
  zk_delete : string -> W -> reply unit * W;
  zk_get_children : string -> W -> reply (list string) * W;
  zk_get : string -> W -> reply (string * Stat) * W;
  zk_exists : string -> W -> reply (option Stat) * W;
  cond_wait : W -> W
}.

(** The requests a method has sent, oldest first. *)
Inductive Call : Type :=
  | CCreate (p d : string)
  | CDelete (p : string)
  | CGetChildren (p : string)
  | CGet (p : string)
  | CExists (p : string)
  | CWait.

(** The fields of a [ZooLock] object. [node] is [None] both before the
    attribute is first assigned and after [release] has set it to [None]. *)
Record ZooLock : Type := mkZooLock {
  path : string;
  data : string;
  prefix : string;
  create_path : string;
  create_tried : bool;
  is_acquired : bool;
  node : option string
}.

Definition _LOCK_NAME : string := "_lock_".

(** [ZooLock.__init__]; [uuid_hex] is the value of [uuid.uuid4().hex]. *)
Definition ZooLock_init (path : string) (contender_name : option string)
    (uuid_hex : string) : ZooLock :=
  let prefix := uuid_hex ++ _LOCK_NAME in
  {| path := path;
     data := match contender_name with
             | Some n => if Py.truthy n then n else ""
             | None => ""
             end;
     prefix := prefix;
     create_path := path ++ "/" ++ prefix;
     create_tried := false;
     is_acquired := false;
     node := None |}.

Definition set_create_tried (b : bool) (h : ZooLock) : ZooLock :=
  {| path := path h; data := data h; prefix := prefix h;
     create_path := create_path h; create_tried := b;
     is_acquired := is_acquired h; node := node h |}.

Definition set_is_acquired (b : bool) (h : ZooLock) : ZooLock :=
  {| path := path h; data := data h; prefix := prefix h;
     create_path := create_path h; create_tried := create_tried h;
     is_acquired := b; node := node h |}.

Definition set_node (n : option string) (h : ZooLock) : ZooLock :=
  {| path := path h; data := data h; prefix := prefix h;
     create_path := create_path h; create_tried := create_tried h;
     is_acquired := is_acquired h; node := n |}.

Section Machine.
Context {W : Type} `{ZkClient W}.

(** The lock object, its client, and the requests sent so far. *)
Record Sys : Type := mkSys {
  self : ZooLock;
  zk : W;
  calls : list Call
}.

Definition M (A : Type) : Type := Sys -> outcome A * Sys.

Definition ret {A} (a : A) : M A := fun s => (Return a, s).

Definition raise {A} (e : exn) : M A := fun s => (Raise e, s).

Definition running {A} : M A := fun s => (Running, s).

Definition bind {A B} (m : M A) (k : A -> M B) : M B :=
  fun s =>
    match m s with
    | (Return a, s') => k a s'
    | (Raise e, s') => (Raise e, s')
    | (Running, s') => (Running, s')
    end.

(** [try: m  except Exception: handler]; the handler gets the exception
    so that a bare [raise] can raise it again. *)
Definition try_except {A} (m : M A) (handler : exn -> M A) : M A :=
  fun s =>
    match m s with
    | (Raise e, s') => handler e s'
    | r => r
    end.

Definition get_self : M ZooLock := fun s => (Return (self s), s).

(** The system with the lock object replaced by [h]. *)
Definition with_self (h : ZooLock) (s : Sys) : Sys :=
  {| self := h; zk := zk s; calls := calls s |}.

(** The system once the request [c] has been sent and the service has
    moved to [w]. *)
Definition after_call (s : Sys) (c : Call) (w : W) : Sys :=
  {| self := self s; zk := w; calls := calls s ++ [c] |}.

Definition update_self (f : ZooLock -> ZooLock) : M unit :=
  fun s => (Return tt, with_self (f (self s)) s).

(** One request to the client: the answer becomes a value or an
    exception, the state of the service moves on and the request is
    recorded. *)
Definition request {A} (c : Call) (op : W -> reply A * W) : M A :=
  fun s =>
    let (r, w) := op (zk s) in
    match r with
    | Done a => (Return a, after_call s c w)
    | Failed e => (Raise (ZkError e), after_call s c w)
    end.

Definition client_create (p d : string) : M string :=
  request (CCreate p d) (zk_create p d).
Definition client_delete (p : string) : M unit :=
  request (CDelete p) (zk_delete p).
Definition client_get_children (p : string) : M (list string) :=
  request (CGetChildren p) (zk_get_children p).
Definition client_get (p : string) : M (string * Stat) :=
  request (CGet p) (zk_get p).
Definition client_exists (p : string) : M (option Stat) :=
  request (CExists p) (zk_exists p).
Definition condition_wait : M unit :=
  fun s => (Return tt, after_call s CWait (cond_wait (zk s))).
End Machine.

Arguments Sys W : clear implicits.
Arguments M W A : clear implicits.
Arguments with_self {W} h s.
Arguments after_call {W} s c w.

Declare Scope lock_scope.
Delimit Scope lock_scope with lock.
Notation "x <- m ;; k" := (bind m (fun x => k))
  (at level 61, m at next level, right associativity) : lock_scope.
Notation "m ;;; k" := (bind m (fun _ => k))
  (at level 61, right associativity) : lock_scope.

(** ** The recipe: [class ZooLock] *)

Section Recipe.
Context {W : Type} `{ZkClient W}.
Local Open Scope lock_scope.

(** The key of [_get_sorted_children]:
    [lambda c: c[c.find(lockname) + len(lockname):]]. *)
Definition sort_key (c : string) : string :=
  Py.slice_from c (Py.find c _LOCK_NAME + Py.len _LOCK_NAME)%Z.

Definition _get_sorted_children : M W (list string) :=
  h <- get_self;;
  children <- client_get_children (path h);;
  ret (Py.sort sort_key children).

(** The [for] loop of [_find_node]. *)
Fixpoint first_with_prefix (pre : string) (children : list string)
    : option string :=
  match children with
  | [] => None
  | child :: rest =>
      if Py.startswith child pre then Some child
      else first_with_prefix pre rest
  end.

Definition _find_node : M W (option string) :=
  h <- get_self;;
  children <- client_get_children (path h);;
  ret (first_with_prefix (prefix h) children).

(** [client.create(self.create_path, self.data, ephemeral=True,
    sequence=True)] followed by [node[len(self.path)+1:]]. *)
Definition create_node : M W string :=
  h <- get_self;;
  created <- client_create (create_path h) (data h);;
  ret (Py.slice_from created (Py.len (path h) + 1)%Z).

(** [_inner_acquire] up to and including [self.node = node]. *)
Definition acquire_node : M W string :=
  h <- get_self;;
  found <- (if create_tried h then _find_node
            else update_self (set_create_tried true);;; ret None);;
  n <- match found with
       | Some n => if Py.truthy n then ret n else create_node
       | None => create_node
       end;;
  update_self (set_node (Some n));;;
  ret n.

(** One round of the [while True] loop of [_inner_acquire]: [Some true]
    is [return True], [None] is the end of the loop body. *)
Definition acquire_round (n : string) : M W (option bool) :=
  children <- _get_sorted_children;;
  match Py.index n children with
  | None => raise ForceRetryError
  | Some our_index =>
      if Nat.eqb our_index 0 then ret (Some true)
      else
        h <- get_self;;
        let predecessor :=
          path h ++ "/" ++ nth (our_index - 1) children "" in
        st <- client_exists predecessor;;
        match st with
        | Some _ => condition_wait
        | None => ret tt
        end;;;
        ret None
  end.

Fixpoint acquire_loop (rounds : nat) (n : string) : M W bool :=
  match rounds with
  | O => running
  | S rounds' =>
      r <- acquire_round n;;
      match r with
      | Some b => ret b
      | None => acquire_loop rounds' n
      end
  end.

Definition _inner_acquire (rounds : nat) : M W bool :=
  n <- acquire_node;;
  acquire_loop rounds n.

Definition _best_effort_cleanup : M W unit :=
  try_except
    (found <- _find_node;;
     match found with
     | Some n =>
         if Py.truthy n then
           h <- get_self;;
           client_delete (path h ++ "/" ++ n)
         else ret tt
     | None => ret tt
     end)
    (fun _ => ret tt).

Definition _inner_release : M W bool :=
  h <- get_self;;
  if negb (is_acquired h) then ret false
  else
    match node h with
    | None => raise TypeError
    | Some n =>
        client_delete (path h ++ "/" ++ n);;;
        update_self (set_is_acquired false);;;
        update_self (set_node None);;;
        ret true
    end.

(** The [for] loop of [get_contenders]; only [NoNodeException] is
    caught. *)
Fixpoint collect_contenders (p : string) (children contenders : list string)
    : M W (list string) :=
  match children with
  | [] => ret contenders
  | child :: rest =>
      contenders' <-
        try_except
          (r <- client_get (p ++ "/" ++ child);;
           ret (contenders ++ [fst r])%list)
          (fun e => match e with
                    | ZkError NoNodeException => ret contenders
                    | _ => raise e
                    end);;
      collect_contenders p rest contenders'
  end.

Definition get_contenders : M W (list string) :=
  children <- _get_sorted_children;;
  h <- get_self;;
  collect_contenders (path h) children [].

(** *** The retry executor *)

(** Modelled from the spec: the failures the retry contract answers by
    invoking the operation again, which are the force-retry signal and
    the transient failures of the client (connection loss, operation
    timeout). [kazoo.retry] is not part of the sources at hand. *)
Definition retryable (e : exn) : bool :=
  match e with
  | ForceRetryError => true
  | ZkError ConnectionLossException => true
  | ZkError OperationTimeoutException => true
  | _ => false
  end.

(** Modelled from the spec: [client.retry], which is not part of the
    sources at hand. The executor invokes the operation; on a retryable
    failure it invokes it again; any other failure propagates at once
    and a result is handed back as it is. [tries] bounds the number of
    invocations that are followed; the delay between two invocations
    touches neither the lock object nor the service. *)
Fixpoint retry {A} (tries : nat) (op : M W A) : M W A :=
  match tries with
  | O => running
  | S tries' =>
      try_except op
        (fun e => if retryable e then retry tries' op else raise e)
  end.

Definition acquire (tries rounds : nat) : M W unit :=
  try_except
    (retry tries (_inner_acquire rounds);;;
     update_self (set_is_acquired true))
    (fun e => _best_effort_cleanup;;; raise e).

Definition release (tries : nat) : M W bool :=
  retry tries _inner_release.

End Recipe.

(** ** An in-memory service

    A small ZooKeeper behind the interface of the client, with a script of
    failures and departures. The service is external to the recipe; its
    operations follow the contracts the recipe relies on: a sequential
    create appends a ten-digit counter to the requested path, [delete] and
    [get] of an absent node fail with [NoNodeException], [exists] answers
    a stat or [None]. *)

Module MemZk.

(** What the script holds for a request: [Fail e] answers [e] and does
    nothing; [Lost e] carries the request out and then answers [e] (the
    answer of the server is lost); [Gone p] serves the request and then
    the node [p] goes away (its owner releases it, or its session
    expires). *)
Inductive fault : Type :=
  | Fail (e : zk_exn)
  | Lost (e : zk_exn)
  | Gone (p : string).

(** [znodes]: full path and value of every node, in creation order;
    [next_seq]: the next sequence number; [script]: what happens to the
    coming requests, [None] for a request served normally; [departures]:
    the nodes that go away during the coming waits, one per wait. *)
Record t : Type := mk {
  znodes : list (string * string);
  next_seq : nat;
  script : list (option fault);
  departures : list string
}.

Fixpoint zeros (k : nat) : string :=
  match k with
  | O => ""
  | S k' => String "0" (zeros k')
  end.

(** The ten-digit suffix of a sequential node. *)
Definition pad10 (n : nat) : string :=
  let d := DecimalString.NilEmpty.string_of_uint (Nat.to_uint n) in
  zeros (10 - String.length d) ++ d.

Definition with_script (sc : list (option fault)) (w : t) : t :=
  {| znodes := znodes w; next_seq := next_seq w; script := sc;
     departures := departures w |}.

Definition with_znodes (ns : list (string * string)) (w : t) : t :=
  {| znodes := ns; next_seq := next_seq w; script := script w;
     departures := departures w |}.

Definition lookup (p : string) (w : t) : option string :=
  option_map snd (List.find (fun kv => String.eqb (fst kv) p) (znodes w)).

Definition remove (p : string) (w : t) : t :=
  with_znodes
    (List.filter (fun kv => negb (String.eqb (fst kv) p)) (znodes w)) w.

Definition serve {A} (act : t -> reply A * t) (w : t) : reply A * t :=
  match script w with
  | [] => act w
  | None :: sc => act (with_script sc w)
  | Some (Fail e) :: sc => (Failed e, with_script sc w)
  | Some (Lost e) :: sc => (Failed e, snd (act (with_script sc w)))
  | Some (Gone p) :: sc =>
      let (r, w') := act (with_script sc w) in (r, remove p w')
  end.

Definition children_of (p : string) (w : t) : list string :=
  List.flat_map
    (fun kv => if String.prefix (p ++ "/") (fst kv)
               then [Py.drop (String.length p + 1) (fst kv)] else [])
    (znodes w).

Definition create (p d : string) : t -> reply string * t :=
  serve (fun w =>
    let actual := p ++ pad10 (next_seq w) in
    (Done actual,
     {| znodes := (znodes w ++ [(actual, d)])%list;
        next_seq := S (next_seq w);
        script := script w; departures := departures w |})).

Definition delete (p : string) : t -> reply unit * t :=
  serve (fun w =>
    match lookup p w with
    | Some _ => (Done tt, remove p w)
    | None => (Failed NoNodeException, w)
    end).

Definition get_children (p : string) : t -> reply (list string) * t :=
  serve (fun w => (Done (children_of p w), w)).

Definition get (p : string) : t -> reply (string * Stat) * t :=
  serve (fun w =>
    match lookup p w with
    | Some d => (Done (d, 0), w)
    | None => (Failed NoNodeException, w)
    end).

Definition exists_ (p : string) : t -> reply (option Stat) * t :=
  serve (fun w =>
    (Done (match lookup p w with Some _ => Some 0 | None => None end), w)).

Definition wait (w : t) : t :=
  match departures w with
  | [] => w
  | p :: ps =>
      remove p {| znodes := znodes w; next_seq := next_seq w;
                  script := script w; departures := ps |}
  end.

#[global] Instance client : ZkClient t := {
  zk_create := create;
  zk_delete := delete;
  zk_get_children := get_children;
  zk_get := get;
  zk_exists := exists_;
  cond_wait := wait
}.

(** A service holding the given nodes, without failures. *)
Definition holding (ns : list (string * string)) (seq : nat) : t :=
  {| znodes := ns; next_seq := seq; script := []; departures := [] |}.

Definition start (h : ZooLock) (w : t) : Sys t :=
  {| self := h; zk := w; calls := [] |}.

End MemZk.

(** ** Vocabulary of the statements *)

(** [sub] occurs in [s] at offset [i] and nowhere before. *)
Definition first_at (sub s : string) (i : nat) : Prop :=
  (exists pre suf, s = pre ++ sub ++ suf /\ String.length pre = i) /\
  (forall pre suf, s = pre ++ sub ++ suf -> i <= String.length pre).

(** [a] is no later than [b] in the byte-wise order of their keys. *)
Definition key_le {A} (key : A -> string) (a b : A) : Prop :=
  String.leb (key a) (key b) = true.

(** The name contains the contender-name marker. *)
Definition has_marker (c : string) : Prop :=
  exists pre suf, c = pre ++ _LOCK_NAME ++ suf.

(** [suf] is the portion of the name [c] that follows the marker, at the
    first place the marker occurs in [c]. *)
Definition after_marker (c suf : string) : Prop :=
  exists pre, c = pre ++ _LOCK_NAME ++ suf /\
              first_at _LOCK_NAME c (String.length pre).

(** [a] comes no later than [b] in the order of the portions that follow
    the marker. *)
Definition suffix_le (a b : string) : Prop :=
  exists ka kb, after_marker a ka /\ after_marker b kb /\
                String.leb ka kb = true.

(** [c] is the first of [children] whose name starts with [pre]. *)
Definition first_match (pre : string) (children : list string) (c : string)
    : Prop :=
  exists before after,
    children = (before ++ c :: after)%list /\
    Py.startswith c pre = true /\
    forall x, In x before -> Py.startswith x pre = false.

(** The values in the replies to a sequence of [get]s, in their order: a
    reply that is a failure has none. *)
Definition values_of (replies : list (reply (string * Stat))) : list string :=
  List.flat_map
    (fun r => match r with Done (d, _) => [d] | Failed _ => [] end) replies.

(** The child was there when its value was asked for, or it was gone. *)
Definition there_or_gone (r : reply (string * Stat)) : Prop :=
  match r with
  | Done _ => True
  | Failed e => e = NoNodeException
  end.

(** The full path of the contender node named [n] of the lock [h]. *)
Definition own_path (h : ZooLock) (n : string) : string :=
  path h ++ "/" ++ n.

(** The lock object once released. *)
Definition released (h : ZooLock) : ZooLock :=
  set_node None (set_is_acquired false h).

(** The requests of the recipe that the statements name. *)
Definition create_call (h : ZooLock) : Call :=
  CCreate (create_path h) (data h).
Definition list_call (h : ZooLock) : Call := CGetChildren (path h).

Section Vocabulary.
Context {W : Type} `{ZkClient W}.

(** The system in which the name [n] has been stored in [self.node]. *)
Definition named (n : string) (s : Sys W) : Sys W :=
  with_self (set_node (Some n) (self s)) s.

(** Creating the contender node from the state [s] and storing its
    name. *)
Definition creating (s : Sys W) : outcome string * Sys W :=
  match create_node s with
  | (Return n, s') => (Return n, named n s')
  | r => r
  end.

(** The method [m] takes the lock object from a state [h] only to a
    state related to [h] by [R]. *)
Definition keeps {A} (R : ZooLock -> ZooLock -> Prop) (m : M W A) : Prop :=
  forall s, R (self s) (self (snd (m s))).

(** What the service replies when the values of [children] are asked
    for one after the other under the lock [h], starting in [w]: each
    [get] is served in the state the one before it has left, so a node
    can vanish, or the connection fail, between any two of them. The
    second component is the state after the last reply. *)
Fixpoint get_each (h : ZooLock) (children : list string) (w : W)
    : list (reply (string * Stat)) * W :=
  match children with
  | [] => ([], w)
  | c :: rest =>
      let (r, w1) := zk_get (own_path h c) w in
      let (rs, w2) := get_each h rest w1 in
      (r :: rs, w2)
  end.

(** The system after the values of [children] have been asked for. *)
Definition after_gets (h : ZooLock) (children : list string) (s : Sys W)
    : Sys W :=
  {| self := self s;
     zk := snd (get_each h children (zk s));
     calls := (calls s ++ map (fun c => CGet (own_path h c)) children)%list |}.

(** [createAttempted] is as it was, or has become true. *)
Definition tried_kept (h h' : ZooLock) : Prop :=
  create_tried h' = create_tried h \/ create_tried h' = true.

(** The methods of a handle, and a lifetime as the sequence of the calls
    made on it. *)
Inductive method : Type :=
  | Acquire (tries rounds : nat)
  | InnerAcquire (rounds : nat)
  | Release (tries : nat)
  | InnerRelease
  | GetContenders
  | BestEffortCleanup
  | FindNode
  | GetSortedChildren.

Definition call_method (m : method) (s : Sys W) : Sys W :=
  match m with
  | Acquire tries rounds => snd (acquire tries rounds s)
  | InnerAcquire rounds => snd (_inner_acquire rounds s)
  | Release tries => snd (release tries s)
  | InnerRelease => snd (_inner_release s)
  | GetContenders => snd (get_contenders s)
  | BestEffortCleanup => snd (_best_effort_cleanup s)
  | FindNode => snd (_find_node s)
  | GetSortedChildren => snd (_get_sorted_children s)
  end.

Definition lifetime (ms : list method) (s : Sys W) : Sys W :=
  fold_left (fun s m => call_method m s) ms s.
End Vocabulary.

(** ** The scenario of the statements

    The lock [/locks/demo], the contenders alice, bob and carol, on the
    in-memory service. *)

Definition alice : ZooLock := ZooLock_init "/locks/demo" (Some "alice") "a11ce".

(** alice holding the lock: her node is the first one created. *)
Definition alice_holding : ZooLock :=
  set_node (Some "a11ce_lock_0000000001")
    (set_is_acquired true (set_create_tried true alice)).

Definition alice_node : string * string :=
  ("/locks/demo/a11ce_lock_0000000001", "alice").
Definition bob_node : string * string :=
  ("/locks/demo/0b0b_lock_0000000002", "bob").
Definition carol_node : string * string :=
  ("/locks/demo/ca401_lock_0000000003", "carol").


(** alice on an empty lock. *)
Definition alice_alone : Sys MemZk.t :=
  MemZk.start alice (MemZk.holding [] 1).

(** alice's create is carried out, but her session expires before the
    answer reaches her. *)
Definition alice_lost : Sys MemZk.t :=
  MemZk.start alice
    {| MemZk.znodes := []; MemZk.next_seq := 1;
       MemZk.script := [Some (MemZk.Lost SessionExpiredException)];
       MemZk.departures := [] |}.

(** alice's node is reaped right after she has created it. *)
Definition alice_reaped : Sys MemZk.t :=
  MemZk.start alice
    {| MemZk.znodes := []; MemZk.next_seq := 1;
       MemZk.script := [Some (MemZk.Gone "/locks/demo/a11ce_lock_0000000001")];
       MemZk.departures := [] |}.

(** The three contenders are listed, and bob's node goes away while the
    value of alice's node is served. *)
Definition bob_leaving : Sys MemZk.t :=
  MemZk.start alice_holding
    {| MemZk.znodes := [carol_node; alice_node; bob_node];
       MemZk.next_seq := 4;
       MemZk.script :=
         [None; Some (MemZk.Gone "/locks/demo/0b0b_lock_0000000002")];
       MemZk.departures := [] |}.

Definition bob_left : MemZk.t := MemZk.holding [carol_node; alice_node] 4.

(** The three contenders are listed and alice's value is fetched; the
    connection is lost when bob's value is asked for. *)
Definition connection_lost : Sys MemZk.t :=
  MemZk.start alice_holding
    {| MemZk.znodes := [alice_node; bob_node; carol_node];
       MemZk.next_seq := 4;
       MemZk.script := [None; None; Some (MemZk.Fail ConnectionLossException)];
       MemZk.departures := [] |}.


(** ** The context manager, and more vocabulary *)

Section ContextManager.
Context {W : Type} `{ZkClient W}.
Local Open Scope lock_scope.

(** [__enter__]: [self.acquire()]. *)
Definition __enter__ (tries rounds : nat) : M W unit :=
  acquire tries rounds.

(** [__exit__]: [self.release()]; what [release] returns is dropped and
    the method returns [None], whatever the block ended with. *)
Definition __exit__ (tries : nat) : M W unit :=
  release tries;;; ret tt.

(** The requests [m] sends all satisfy [P]. *)
Definition sends {A} (P : Call -> Prop) (m : M W A) : Prop :=
  forall s, exists l,
    calls (snd (m s)) = (calls s ++ l)%list /\ Forall P l.
End ContextManager.


Definition not_delete (c : Call) : Prop :=
  match c with
  | CDelete _ => False
  | _ => True
  end.

Definition not_create (c : Call) : Prop :=
  match c with
  | CCreate _ _ => False
  | _ => True
  end.

(** The fields set by [__init__] and read ever after. *)
Definition same_identity (h h' : ZooLock) : Prop :=
  path h' = path h /\ data h' = data h /\ prefix h' = prefix h /\
  create_path h' = create_path h.

(** A handle that says [acquired] knows the name of its node. *)
Definition acquired_has_node (h : ZooLock) : Prop :=
  is_acquired h = true -> exists n, node h = Some n.

(** The body of acquire may store a name in [self.node] and set
    [create_tried]; it leaves [is_acquired] alone and never clears the
    name. *)
Definition body_step (h h' : ZooLock) : Prop :=
  is_acquired h' = is_acquired h /\
  (node h' = node h \/ exists n, node h' = Some n).

(** No underscore occurs in the string, as in the hexadecimal form of a
    uuid. *)
Fixpoint no_underscore (s : string) : bool :=
  match s with
  | EmptyString => true
  | String a s' => negb (Ascii.eqb a "_") && no_underscore s'
  end.

(** ** The client: [kazoo/zkclient.py] *)

Module zkclient.

(** What the client takes from the [zookeeper] extension module, which is
    not part of the sources: the result codes, the creation flags, the
    text of a code ([zerror], [None] when it raises) and the code that
    closing a handle gives. *)
Record zookeeper : Type := {
  OK : Z;
  SYSTEMERROR : Z;
  RUNTIMEINCONSISTENCY : Z;
  DATAINCONSISTENCY : Z;
  CONNECTIONLOSS : Z;
  MARSHALLINGERROR : Z;
  UNIMPLEMENTED : Z;
  OPERATIONTIMEOUT : Z;
  BADARGUMENTS : Z;
  APIERROR : Z;
  NONODE : Z;
  NOAUTH : Z;
  BADVERSION : Z;
  NOCHILDRENFOREPHEMERALS : Z;
  NODEEXISTS : Z;
  INVALIDACL : Z;
  AUTHFAILED : Z;
  NOTEMPTY : Z;
  SESSIONEXPIRED : Z;
  INVALIDCALLBACK : Z;
  EPHEMERAL : Z;
  SEQUENCE : Z;
  zerror : Z -> option string;
  zoo_close : option Z -> Z
}.

(** [d.get(k)] for a dictionary written as a literal: of two entries with
    the same key the later one counts. *)
Fixpoint dict_get {V : Type} (d : list (Z * V)) (k : Z) : option V :=
  match d with
  | [] => None
  | (k', v) :: d' =>
      match dict_get d' k with
      | Some v' => Some v'
      | None => if Z.eqb k' k then Some v else None
      end
  end.

(** What a callback does with the [async_result] it is given:
    [set(value)] or [set_exception(exc)]. *)
Inductive completion (R : Type) : Type :=
  | Set_ (value : R)
  | SetException (exc : option (zk_exn * string)).
Arguments Set_ {R} value.
Arguments SetException {R} exc.

(** The result [_generic_callback] builds from [*args]. *)
Inductive packed (V : Type) : Type :=
  | PNone
  | PValue (v : V)
  | PTuple (vs : list V).
Arguments PNone {V}.
Arguments PValue {V} v.
Arguments PTuple {V} vs.

(** The fields of [ZooKeeperClient] that [close] works on. *)
Record ZooKeeperClient : Type := {
  _handle : option Z;
  _connected : bool
}.

(** How a call ends: normally, with an exception of the client, or with
    the [TypeError] of raising [None]. *)
Inductive ending : Type :=
  | Normal
  | Raises (e : zk_exn) (msg : string)
  | RaisesTypeError.

Section Client.
Variable z : zookeeper.

Definition _ERR_TO_EXCEPTION : list (Z * zk_exn) :=
  [ (SYSTEMERROR z, SystemErrorException);
    (RUNTIMEINCONSISTENCY z, RuntimeInconsistencyException);
    (DATAINCONSISTENCY z, DataInconsistencyException);
    (CONNECTIONLOSS z, ConnectionLossException);
    (MARSHALLINGERROR z, MarshallingErrorException);
    (UNIMPLEMENTED z, UnimplementedException);
    (OPERATIONTIMEOUT z, OperationTimeoutException);
    (BADARGUMENTS z, BadArgumentsException);
    (APIERROR z, ApiErrorException);
    (NONODE z, NoNodeException);
    (NOAUTH z, NoAuthException);
    (BADVERSION z, BadVersionException);
    (NOCHILDRENFOREPHEMERALS z, NoChildrenForEphemeralsException);
    (NODEEXISTS z, NodeExistsException);
    (INVALIDACL z, InvalidACLException);
    (AUTHFAILED z, AuthFailedException);
    (NOTEMPTY z, NotEmptyException);
    (SESSIONEXPIRED z, SessionExpiredException);
    (INVALIDCALLBACK z, InvalidCallbackException) ].

(** [err_to_exception(error_code, msg)]: the exception object, as its
    class and its message, or [None]. *)
Definition err_to_exception (error_code : Z) (msg : option string)
    : option (zk_exn * string) :=
  let zkmsg := match zerror z error_code with
               | Some m => m
               | None => ""
               end in
  let msg := if Py.truthy_opt msg then
               if Py.truthy zkmsg then
                 zkmsg ++ ": " ++ match msg with Some m => m | None => "" end
               else match msg with Some m => m | None => "" end
             else zkmsg in
  match dict_get _ERR_TO_EXCEPTION error_code with
  | None =>
      if Z.eqb error_code (OK z) then None
      else Some (OtherException, msg)
  | Some exc => Some (exc, msg)
  end.

Definition _generic_callback {V : Type} (code : Z) (args : list V)
    : completion (packed V) :=
  if negb (Z.eqb code (OK z)) then
    SetException (err_to_exception code None)
  else
    Set_ (match args with
          | [] => PNone
          | [a] => PValue a
          | _ => PTuple args
          end).

Definition _exists_callback {S : Type} (code : Z) (stat : S)
    : completion S :=
  if negb (Z.eqb code (OK z) || Z.eqb code (NONODE z)) then
    SetException (err_to_exception code None)
  else Set_ stat.

(** The flags of [create_async]. *)
Definition create_flags (ephemeral sequence : bool) : Z :=
  let flags := 0%Z in
  let flags := if ephemeral then Z.lor flags (EPHEMERAL z) else flags in
  let flags := if sequence then Z.lor flags (SEQUENCE z) else flags in
  flags.

Definition close (c : ZooKeeperClient) : ending * ZooKeeperClient :=
  if _connected c then
    let code := zoo_close z (_handle c) in
    let c' := {| _handle := None; _connected := false |} in
    if negb (Z.eqb code (OK z)) then
      match err_to_exception code None with
      | Some (e, msg) => (Raises e msg, c')
      | None => (RaisesTypeError, c')
      end
    else (Normal, c')
  else (Normal, c).

End Client.

(** An instance of the extension module: the codes and flags are those of
    the ZooKeeper C client ([zookeeper.h]); [zerror] knows the texts of a
    few codes and raises for the others; closing the handle 7 loses the
    connection. *)
Definition zookeeper_h : zookeeper :=
  {| OK := 0; SYSTEMERROR := -1; RUNTIMEINCONSISTENCY := -2;
     DATAINCONSISTENCY := -3; CONNECTIONLOSS := -4;
     MARSHALLINGERROR := -5; UNIMPLEMENTED := -6; OPERATIONTIMEOUT := -7;
     BADARGUMENTS := -8; APIERROR := -100; NONODE := -101; NOAUTH := -102;
     BADVERSION := -103; NOCHILDRENFOREPHEMERALS := -108;
     NODEEXISTS := -110; INVALIDACL := -114; AUTHFAILED := -115;
     NOTEMPTY := -111; SESSIONEXPIRED := -112; INVALIDCALLBACK := -113;
     EPHEMERAL := 1; SEQUENCE := 2;
     zerror := fun code =>
       if Z.eqb code 0 then Some "ok"
       else if Z.eqb code (-4) then Some "connection loss"
       else if Z.eqb code (-101) then Some "no node"
       else if Z.eqb code (-110) then Some "node exists"
       else None;
     zoo_close := fun h =>
       match h with
       | Some n => if Z.eqb n 7 then (-4) else 0
       | None => (-8)
       end |}%Z.

End zkclient.

(** ** Facts about the string operations *)

Lemma prefix_split (p s : string) :
  String.prefix p s = true <-> exists suf, s = p ++ suf.
Proof.
  revert s; induction p as [|a p IH]; intros s.
  - simpl. destruct s; split; intros; eauto.
  - destruct s as [|b s].
    + split; [discriminate | intros [suf E]; discriminate].
    + change (String.prefix (String a p) (String b s))
        with (if ascii_dec a b then String.prefix p s else false).
      destruct (ascii_dec a b) as [->|N].
      * split.
        -- intros P. apply IH in P as [suf ->]. now exists suf.
        -- intros [suf E]. apply IH. exists suf. now inversion E.
      * split; [discriminate | intros [suf E]; inversion E; congruence].
Qed.

Lemma append_assoc (a b c : string) : (a ++ b) ++ c = a ++ (b ++ c).
Proof. induction a; simpl; congruence. Qed.

Lemma length_append (a b : string) :
  String.length (a ++ b) = String.length a + String.length b.
Proof. induction a; simpl; congruence. Qed.

Lemma drop_append (a b : string) : Py.drop (String.length a) (a ++ b) = b.
Proof. induction a; simpl; auto. Qed.

Lemma find_opt_eq (sub s : string) :
  Py.find_opt sub s =
  if String.prefix sub s then Some 0
  else match s with
       | EmptyString => None
       | String _ s' => option_map S (Py.find_opt sub s')
       end.
Proof. destruct s; reflexivity. Qed.

Lemma find_opt_some (sub s : string) (i : nat) :
  Py.find_opt sub s = Some i -> first_at sub s i.
Proof.
  revert i; induction s as [|a s IH]; intros i; rewrite find_opt_eq.
  - destruct (String.prefix sub "") eqn:P; [|discriminate].
    intros [= <-]. apply prefix_split in P as [suf E]. split.
    + exists "", suf. now split.
    + intros; lia.
  - destruct (String.prefix sub (String a s)) eqn:P.
    + intros [= <-]. apply prefix_split in P as [suf E]. split.
      * exists "", suf. now split.
      * intros; lia.
    + destruct (Py.find_opt sub s) as [j|] eqn:F; [|discriminate].
      simpl. intros [= <-]. destruct (IH j eq_refl) as [[pre [suf [E L]]] Hmin].
      split.
      * exists (String a pre), suf. simpl. split; congruence.
      * intros pre' suf' E'. destruct pre' as [|b pre'].
        -- simpl in E'. assert (String.prefix sub (String a s) = true)
             by (apply prefix_split; eauto). congruence.
        -- simpl in E'. injection E' as _ Hs. simpl.
           apply le_n_S. apply (Hmin pre' suf' Hs).
Qed.

Lemma find_opt_none (sub s pre suf : string) :
  s = pre ++ sub ++ suf -> Py.find_opt sub s <> None.
Proof.
  revert s; induction pre as [|a pre IH]; intros s ->; rewrite find_opt_eq.
  - assert (P : String.prefix sub (sub ++ suf) = true)
      by (apply prefix_split; eauto).
    simpl. rewrite P. discriminate.
  - destruct (String.prefix sub (String a pre ++ sub ++ suf));
      [discriminate|].
    specialize (IH _ eq_refl). simpl.
    destruct (Py.find_opt sub (pre ++ sub ++ suf)); [discriminate | congruence].
Qed.

Lemma first_at_fun (sub s : string) (i j : nat) :
  first_at sub s i -> first_at sub s j -> i = j.
Proof.
  intros [[p1 [s1 [E1 L1]]] M1] [[p2 [s2 [E2 L2]]] M2].
  apply M1 in E2. apply M2 in E1. lia.
Qed.

Lemma append_inj_length (a b c d : string) :
  a ++ b = c ++ d -> String.length a = String.length c -> a = c /\ b = d.
Proof.
  revert c; induction a as [|x a IH]; intros [|y c]; simpl; try discriminate.
  - auto.
  - intros E L. inversion E; subst. destruct (IH c H1) as [-> ->]; auto.
Qed.

Lemma leb_refl (s : string) : String.leb s s = true.
Proof.
  destruct (String.leb_total s s); assumption.
Qed.

Lemma compare_trans_lt (a b c : string) :
  String.compare a b = Lt -> String.compare b c = Lt ->
  String.compare a c = Lt.
Proof.
  revert b c; induction a as [|x a IH]; intros [|y b] [|z c]; simpl;
    try discriminate; auto.
  unfold Ascii.compare.
  destruct (N.compare_spec (N_of_ascii x) (N_of_ascii y)) as [E1|L1|G1];
    try discriminate;
  destruct (N.compare_spec (N_of_ascii y) (N_of_ascii z)) as [E2|L2|G2];
    try discriminate; intros H1 H2.
  - rewrite E1, E2, N.compare_refl. eauto.
  - rewrite E1. now apply N.compare_lt_iff in L2 as ->.
  - rewrite <- E2. now apply N.compare_lt_iff in L1 as ->.
  - assert (L : (N_of_ascii x < N_of_ascii z)%N) by lia.
    now apply N.compare_lt_iff in L as ->.
Qed.

Lemma leb_trans (a b c : string) :
  String.leb a b = true -> String.leb b c = true -> String.leb a c = true.
Proof.
  unfold String.leb.
  destruct (String.compare a b) eqn:E1; try discriminate;
  destruct (String.compare b c) eqn:E2; try discriminate; intros _ _.
  - apply String.compare_eq_iff in E1, E2. subst. exact (leb_refl c).
  - apply String.compare_eq_iff in E1. subst. now rewrite E2.
  - apply String.compare_eq_iff in E2. subst. now rewrite E1.
  - now rewrite (compare_trans_lt _ _ _ E1 E2).
Qed.

Lemma leb_false_flip (a b : string) :
  String.leb a b = false -> String.leb b a = true.
Proof.
  destruct (String.leb_total a b); congruence.
Qed.

(** ** The stable sort *)

Section SortFacts.
Context {A : Type} (key : A -> string).

Lemma insert_perm (x : A) (l : list A) :
  Permutation (x :: l) (Py.insert key x l).
Proof.
  induction l as [|y l IH]; simpl; auto.
  destruct (String.leb (key x) (key y)); auto.
  rewrite perm_swap. now constructor.
Qed.

Lemma sort_perm (l : list A) : Permutation l (Py.sort key l).
Proof.
  induction l as [|x l IH]; simpl; auto.
  rewrite <- insert_perm. now constructor.
Qed.

Lemma insert_sorted (x : A) (l : list A) :
  StronglySorted (key_le key) l -> StronglySorted (key_le key) (Py.insert key x l).
Proof.
  induction 1 as [|y l Hs IH Hy]; simpl.
  - repeat constructor.
  - destruct (String.leb (key x) (key y)) eqn:E.
    + constructor; [now constructor|].
      constructor; auto.
      eapply Forall_impl; [|exact Hy].
      intros z Hz. unfold key_le in *. eapply leb_trans; eauto.
    + constructor; auto.
      eapply Permutation_Forall; [apply insert_perm|].
      constructor; auto. now apply leb_false_flip.
Qed.

Lemma sort_sorted (l : list A) : StronglySorted (key_le key) (Py.sort key l).
Proof.
  induction l; simpl; [constructor | now apply insert_sorted].
Qed.
End SortFacts.

Lemma StronglySorted_weaken {A} (R R' : A -> A -> Prop) (P : A -> Prop)
    (l : list A) :
  (forall a b, P a -> P b -> R a b -> R' a b) ->
  Forall P l -> StronglySorted R l -> StronglySorted R' l.
Proof.
  intros HR HP HS. induction HS as [|a l HS IH Ha]; constructor.
  - apply IH. now inversion HP.
  - inversion HP; subst. rewrite Forall_forall in *. eauto.
Qed.

(** With the marker in the name, the sort key is the portion after its
    first occurrence. *)
Lemma sort_key_after_marker (c : string) :
  has_marker c -> after_marker c (sort_key c).
Proof.
  intros [pre [suf E]]. unfold sort_key, Py.find.
  destruct (Py.find_opt _LOCK_NAME c) as [i|] eqn:F.
  - pose proof (find_opt_some _ _ _ F) as Hf.
    destruct Hf as [[p [s [Ec Lp]]] Hmin].
    exists p. unfold Py.slice_from, Py.len.
    replace (Z.of_nat i + Z.of_nat (String.length _LOCK_NAME) <? 0)%Z
      with false by (symmetry; apply Z.ltb_ge; lia).
    rewrite <- Nat2Z.inj_add, Nat2Z.id.
    assert (Ed : Py.drop (i + String.length _LOCK_NAME) c = s).
    { rewrite Ec at 1. rewrite <- append_assoc, <- Lp, <- length_append.
      apply drop_append. }
    rewrite Ed. split; [exact Ec|].
    rewrite Lp. split; [now exists p, s | exact Hmin].
  - exfalso. eapply find_opt_none; eauto.
Qed.

Lemma after_marker_fun (c k1 k2 : string) :
  after_marker c k1 -> after_marker c k2 -> k1 = k2.
Proof.
  intros [p1 [E1 F1]] [p2 [E2 F2]].
  pose proof (first_at_fun _ _ _ _ F1 F2) as L.
  rewrite E1 in E2. apply append_inj_length in E2 as [_ E2]; auto.
  apply append_inj_length in E2 as [_ E2]; auto.
Qed.

(** ** Running the requests *)

Section Requests.
Context {W : Type} `{ZkClient W}.

Lemma request_done {A} (c : Call) (op : W -> reply A * W) (s : Sys W)
    (a : A) (w : W) :
  op (zk s) = (Done a, w) -> request c op s = (Return a, after_call s c w).
Proof. unfold request. now intros ->. Qed.

Lemma request_failed {A} (c : Call) (op : W -> reply A * W) (s : Sys W)
    (e : zk_exn) (w : W) :
  op (zk s) = (Failed e, w) ->
  request c op s = (Raise (ZkError e), after_call s c w).
Proof. unfold request. now intros ->. Qed.

Lemma get_sorted_children_done (s : Sys W) (children : list string) (w : W) :
  zk_get_children (path (self s)) (zk s) = (Done children, w) ->
  _get_sorted_children s =
  (Return (Py.sort sort_key children),
   after_call s (CGetChildren (path (self s))) w).
Proof.
  intros E. unfold _get_sorted_children, bind, get_self, client_get_children.
  now rewrite (request_done _ _ _ _ _ E).
Qed.

Lemma get_sorted_children_failed (s : Sys W) (e : zk_exn) (w : W) :
  zk_get_children (path (self s)) (zk s) = (Failed e, w) ->
  _get_sorted_children s =
  (Raise (ZkError e), after_call s (CGetChildren (path (self s))) w).
Proof.
  intros E. unfold _get_sorted_children, bind, get_self, client_get_children.
  now rewrite (request_failed _ _ _ _ _ E).
Qed.

Lemma find_node_done (s : Sys W) (children : list string) (w : W) :
  zk_get_children (path (self s)) (zk s) = (Done children, w) ->
  _find_node s =
  (Return (first_with_prefix (prefix (self s)) children),
   after_call s (CGetChildren (path (self s))) w).
Proof.
  intros E. unfold _find_node, bind, get_self, client_get_children.
  now rewrite (request_done _ _ _ _ _ E).
Qed.

Lemma find_node_failed (s : Sys W) (e : zk_exn) (w : W) :
  zk_get_children (path (self s)) (zk s) = (Failed e, w) ->
  _find_node s =
  (Raise (ZkError e), after_call s (CGetChildren (path (self s))) w).
Proof.
  intros E. unfold _find_node, bind, get_self, client_get_children.
  now rewrite (request_failed _ _ _ _ _ E).
Qed.
End Requests.

(** ** Sorted children *)

Section SortedChildren.
Context {W : Type} `{ZkClient W}.

(** C5. When every listed child carries the marker [_lock_], the sorted
    children are a permutation of the listing, ordered by the portion of
    each name that follows the marker. *)
Theorem sorted_children_by_suffix (s : Sys W) (children : list string)
    (w : W) :
  zk_get_children (path (self s)) (zk s) = (Done children, w) ->
  Forall has_marker children ->
  exists sorted s',
    _get_sorted_children s = (Return sorted, s') /\
    Permutation children sorted /\
    StronglySorted suffix_le sorted.
Proof.
  intros E Hm.
  exists (Py.sort sort_key children),
         (after_call s (CGetChildren (path (self s))) w).
  split; [now apply get_sorted_children_done|].
  split; [apply sort_perm|].
  apply StronglySorted_weaken
    with (R := key_le sort_key)
         (P := has_marker).
  - intros a b Ha Hb Hab. exists (sort_key a), (sort_key b).
    auto using sort_key_after_marker.
  - eapply Permutation_Forall; [apply sort_perm | exact Hm].
  - apply sort_sorted.
Qed.

End SortedChildren.

(** The order of the random prefixes plays no part: three contenders whose
    prefixes are in the order [aa < mm < zz] come out in the order of
    their sequence numbers. *)
Lemma sorted_children_by_suffix_witness :
  let h := ZooLock_init "/locks/demo" None "cafe" in
  let w := MemZk.holding
             [("/locks/demo/zz_lock_0000000002", "b");
              ("/locks/demo/aa_lock_0000000003", "c");
              ("/locks/demo/mm_lock_0000000001", "a")] 4 in
  let children :=
    ["zz_lock_0000000002"; "aa_lock_0000000003"; "mm_lock_0000000001"] in
  zk_get_children (path h) w = (Done children, w) /\
  Forall has_marker children /\
  exists sorted s',
    _get_sorted_children (MemZk.start h w) = (Return sorted, s') /\
    Permutation children sorted /\
    StronglySorted suffix_le sorted.
Proof.
  intros h w children.
  assert (E : zk_get_children (path h) w = (Done children, w))
    by reflexivity.
  assert (Hm : Forall has_marker children).
  { repeat constructor.
    - now exists "zz", "0000000002".
    - now exists "aa", "0000000003".
    - now exists "mm", "0000000001". }
  split; [exact E|]. split; [exact Hm|].
  exact (sorted_children_by_suffix (MemZk.start h w) children w E Hm).
Defined.

(** ** The retry executor *)

Section Retry.
Context {W : Type} `{ZkClient W} {A : Type}.
Variable op : M W A.

Lemma retry_return (tries : nat) (s s' : Sys W) (a : A) :
  op s = (Return a, s') -> retry (S tries) op s = (Return a, s').
Proof. simpl. unfold try_except. now intros ->. Qed.

Lemma retry_fatal (tries : nat) (s s' : Sys W) (e : exn) :
  op s = (Raise e, s') -> retryable e = false ->
  retry (S tries) op s = (Raise e, s').
Proof. simpl. unfold try_except. now intros -> ->. Qed.

Lemma retry_again (tries : nat) (s s' : Sys W) (e : exn) :
  op s = (Raise e, s') -> retryable e = true ->
  retry (S tries) op s = retry tries op s'.
Proof. simpl. unfold try_except. now intros -> ->. Qed.

Lemma retry_running (tries : nat) (s s' : Sys W) :
  op s = (Running, s') -> retry (S tries) op s = (Running, s').
Proof. simpl. unfold try_except. now intros ->. Qed.

(** What the executor lets out is not retryable. *)
Lemma retry_raise_fatal (tries : nat) (s s' : Sys W) (e : exn) :
  retry tries op s = (Raise e, s') -> retryable e = false.
Proof.
  revert s; induction tries as [|tries IH]; intros s; simpl.
  - discriminate.
  - unfold try_except. destruct (op s) as [[a|e0|] s0] eqn:E.
    + discriminate.
    + destruct (retryable e0) eqn:R.
      * apply IH.
      * unfold raise. now intros [= <- <-].
    + discriminate.
Qed.

(** A result of the executor is a result of its last invocation. *)
Lemma retry_return_inv (tries : nat) (s s' : Sys W) (a : A) :
  retry tries op s = (Return a, s') ->
  exists s0, op s0 = (Return a, s').
Proof.
  revert s; induction tries as [|tries IH]; intros s; simpl.
  - discriminate.
  - unfold try_except. destruct (op s) as [[a0|e0|] s0] eqn:E.
    + intros [= <- <-]. now exists s.
    + destruct (retryable e0); [apply IH | discriminate].
    + discriminate.
Qed.

(** A failure the executor lets out is a failure of its last
    invocation. *)
Lemma retry_raise_inv (tries : nat) (s s' : Sys W) (e : exn) :
  retry tries op s = (Raise e, s') ->
  exists s0, op s0 = (Raise e, s').
Proof.
  revert s; induction tries as [|tries IH]; intros s; simpl.
  - discriminate.
  - unfold try_except. destruct (op s) as [[a0|e0|] s0] eqn:E.
    + discriminate.
    + destruct (retryable e0); [apply IH|].
      unfold raise. intros [= <- <-]. now exists s.
    + discriminate.
Qed.

(** What every invocation preserves, the executor preserves. *)
Lemma retry_preserves (R : Sys W -> Sys W -> Prop) :
  (forall s, R s s) ->
  (forall s1 s2 s3, R s1 s2 -> R s2 s3 -> R s1 s3) ->
  (forall s, R s (snd (op s))) ->
  forall tries s, R s (snd (retry tries op s)).
Proof.
  intros Hrefl Htrans Hop tries.
  induction tries as [|tries IH]; intros s; simpl.
  - apply Hrefl.
  - unfold try_except. specialize (Hop s).
    destruct (op s) as [[a0|e0|] s0] eqn:E; simpl in *; auto.
    destruct (retryable e0); [|exact Hop].
    eapply Htrans; [exact Hop | apply IH].
Qed.

(** What every failing invocation leaves as it was, a failing run of the
    executor leaves as it was. *)
Lemma retry_failure_keeps {B} (f : Sys W -> B) :
  (forall s o s', op s = (o, s') -> (forall a, o <> Return a) ->
                  f s' = f s) ->
  forall tries s o s',
    retry tries op s = (o, s') -> (forall a, o <> Return a) -> f s' = f s.
Proof.
  intros Hop tries.
  induction tries as [|tries IH]; intros s o s'; simpl.
  - unfold running. now intros [= <- <-].
  - unfold try_except. destruct (op s) as [[a0|e0|] s0] eqn:E.
    + intros [= <- <-] Hn. now destruct (Hn a0).
    + assert (E0 : f s0 = f s) by (eapply Hop; [exact E | discriminate]).
      destruct (retryable e0).
      * intros Hr Hn. rewrite <- E0. eapply IH; eauto.
      * unfold raise. now intros [= <- <-].
    + intros [= <- <-] _. eapply Hop; [exact E | discriminate].
Qed.
End Retry.

(** ** Release *)

Section Release.
Context {W : Type} `{ZkClient W}.

Lemma inner_release_unacquired (s : Sys W) :
  is_acquired (self s) = false -> _inner_release s = (Return false, s).
Proof.
  intros E. unfold _inner_release, bind, get_self. now rewrite E.
Qed.

Lemma inner_release_done (s : Sys W) (n : string) (w : W) :
  is_acquired (self s) = true -> node (self s) = Some n ->
  zk_delete (own_path (self s) n) (zk s) = (Done tt, w) ->
  _inner_release s =
  (Return true,
   with_self (set_node None (set_is_acquired false (self s)))
             (after_call s (CDelete (own_path (self s) n)) w)).
Proof.
  intros Ea En Ed. unfold _inner_release, bind, get_self, client_delete.
  rewrite Ea, En. simpl. fold (own_path (self s) n).
  now rewrite (request_done _ _ _ _ _ Ed).
Qed.

Lemma inner_release_failed (s : Sys W) (n : string) (e : zk_exn) (w : W) :
  is_acquired (self s) = true -> node (self s) = Some n ->
  zk_delete (own_path (self s) n) (zk s) = (Failed e, w) ->
  _inner_release s =
  (Raise (ZkError e), after_call s (CDelete (own_path (self s) n)) w).
Proof.
  intros Ea En Ed. unfold _inner_release, bind, get_self, client_delete.
  rewrite Ea, En. simpl. fold (own_path (self s) n).
  now rewrite (request_failed _ _ _ _ _ Ed).
Qed.

Lemma inner_release_failure_keeps (s : Sys W) (o : outcome bool)
    (s' : Sys W) :
  _inner_release s = (o, s') -> (forall b, o <> Return b) ->
  self s' = self s.
Proof.
  unfold _inner_release, bind, get_self, client_delete, request, raise, ret.
  destruct (is_acquired (self s)); simpl.
  - destruct (node (self s)) as [n|].
    + destruct (zk_delete _ (zk s)) as [[[]|e] w]; simpl.
      * intros [= <- <-] Hn. now destruct (Hn true).
      * now intros [= <- <-].
    + now intros [= <- <-].
  - intros [= <- <-] Hn. now destruct (Hn false).
Qed.
End Release.

Section ReleaseProperties.
Context {W : Type} `{ZkClient W}.

(** C2. [release()] on a handle that does not hold the lock returns false,
    leaves every field of the handle as it was and sends no request; on a
    handle that holds the lock, when the delete of the node [nodeName]
    under [path] succeeds, it clears [acquired] and [nodeName] and returns
    true; a second [release()] then returns false. *)
Theorem release_returns_true_then_false (s : Sys W) (tries : nat) :
  (is_acquired (self s) = false ->
   release (S tries) s = (Return false, s)) /\
  (forall n w,
     is_acquired (self s) = true -> node (self s) = Some n ->
     zk_delete (own_path (self s) n) (zk s) = (Done tt, w) ->
     let s' := with_self (released (self s))
                 (after_call s (CDelete (own_path (self s) n)) w) in
     release (S tries) s = (Return true, s') /\
     is_acquired (self s') = false /\ node (self s') = None /\
     forall tries', release (S tries') s' = (Return false, s')).
Proof.
  split.
  - intros E. apply retry_return. now apply inner_release_unacquired.
  - intros n w Ea En Ed s'.
    split; [|split; [reflexivity|split; [reflexivity|]]].
    + apply retry_return. now apply inner_release_done.
    + intros tries'. apply retry_return.
      now apply inner_release_unacquired.
Qed.

(** C10. A delete that fails in the body of [release] leaves [acquired] and
    [nodeName] as they were, whatever the exception; and whenever
    [release()] raises, the handle is as it was before the call. *)
Theorem release_failure_leaves_handle (s : Sys W) :
  (forall n e w,
     is_acquired (self s) = true -> node (self s) = Some n ->
     zk_delete (own_path (self s) n) (zk s) = (Failed e, w) ->
     exists s', _inner_release s = (Raise (ZkError e), s') /\
                self s' = self s) /\
  (forall tries e s',
     release tries s = (Raise e, s') -> self s' = self s).
Proof.
  split.
  - intros n e w Ea En Ed. eexists. split;
      [eapply inner_release_failed; eassumption | reflexivity].
  - intros tries e s' E. unfold release in E.
    eapply (retry_failure_keeps _inner_release self); [|exact E|discriminate].
    intros s0 o s1. apply inner_release_failure_keeps.
Qed.

End ReleaseProperties.

Lemma release_returns_true_then_false_witness :
  let idle := MemZk.start alice (MemZk.holding [] 1) in
  let held := MemZk.start alice_holding (MemZk.holding [alice_node] 2) in
  let after :=
    with_self (released alice_holding)
      (after_call held (CDelete "/locks/demo/a11ce_lock_0000000001")
         (MemZk.holding [] 2)) in
  release 1 idle = (Return false, idle) /\
  release 1 held = (Return true, after) /\
  release 1 after = (Return false, after).
Proof.
  intros idle held after.
  destruct (release_returns_true_then_false idle 0) as [Hidle _].
  destruct (release_returns_true_then_false held 0) as [_ Hheld].
  destruct (Hheld "a11ce_lock_0000000001" (MemZk.holding [] 2)
              eq_refl eq_refl eq_refl) as [H1 [_ [_ H2]]].
  split; [exact (Hidle eq_refl)|]. split; [exact H1 | exact (H2 0)].
Defined.

(** C1. alice holds the lock and her node has been removed from the store
    (her session expired): the delete of [release()] fails with
    [NoNodeException], which the body does not catch and the executor does
    not retry, so [release()] raises it and the handle still says
    [acquired]. *)
Theorem release_after_node_removed_raises :
  let held := MemZk.start alice_holding (MemZk.holding [] 2) in
  forall tries,
    release (S tries) held =
    (Raise (ZkError NoNodeException),
     after_call held (CDelete "/locks/demo/a11ce_lock_0000000001")
       (MemZk.holding [] 2)) /\
    is_acquired (self (snd (release (S tries) held))) = true.
Proof.
  intros held tries.
  assert (E : release (S tries) held =
              (Raise (ZkError NoNodeException),
               after_call held (CDelete "/locks/demo/a11ce_lock_0000000001")
                 (MemZk.holding [] 2))).
  { apply retry_fatal; [|reflexivity].
    now apply (inner_release_failed held "a11ce_lock_0000000001"). }
  split; [exact E | now rewrite E].
Qed.

Lemma release_failure_leaves_handle_witness :
  let held :=
    MemZk.start alice_holding
      {| MemZk.znodes := [alice_node]; MemZk.next_seq := 2;
         MemZk.script := [Some (MemZk.Fail SessionExpiredException)];
         MemZk.departures := [] |} in
  (exists s', _inner_release held =
              (Raise (ZkError SessionExpiredException), s') /\
              self s' = self held) /\
  self (snd (release 3 held)) = self held.
Proof.
  intros held.
  destruct (release_failure_leaves_handle held) as [Hbody Hrel].
  split.
  - exact (Hbody "a11ce_lock_0000000001" SessionExpiredException
             (MemZk.holding [alice_node] 2) eq_refl eq_refl eq_refl).
  - exact (Hrel 3 (ZkError SessionExpiredException)
             (snd (release 3 held)) eq_refl).
Defined.

(** ** Finding the node by its prefix *)

Lemma first_with_prefix_some (pre : string) (children : list string)
    (c : string) :
  first_with_prefix pre children = Some c <-> first_match pre children c.
Proof.
  induction children as [|x l IH]; simpl.
  - split; [discriminate|]. intros [b [a [E _]]]. now destruct b.
  - destruct (Py.startswith x pre) eqn:P.
    + split.
      * intros [= ->]. exists [], l. now repeat split.
      * intros [[|y b] [a [E [Pc Hb]]]]; simpl in E; injection E as -> ->.
        -- reflexivity.
        -- rewrite (Hb y) in P; [discriminate | now left].
    + rewrite IH. split.
      * intros [b [a [-> [Pc Hb]]]]. exists (x :: b), a.
        repeat split; auto. intros y [<-|Hy]; auto.
      * intros [[|y b] [a [E [Pc Hb]]]]; simpl in E; injection E as -> ->.
        -- congruence.
        -- exists b, a. repeat split; auto. intros z Hz. apply Hb. now right.
Qed.

Lemma first_with_prefix_none (pre : string) (children : list string) :
  first_with_prefix pre children = None <->
  forall c, In c children -> Py.startswith c pre = false.
Proof.
  induction children as [|x l IH]; simpl.
  - split; [now intros _ c [] | reflexivity].
  - destruct (Py.startswith x pre) eqn:P.
    + split; [discriminate|]. intros Hn. rewrite (Hn x) in P; auto.
      discriminate.
    + rewrite IH. split.
      * intros Hl c [<-|Hc]; auto.
      * intros Hl c Hc. apply Hl. now right.
Qed.

Lemma startswith_truthy (c pre : string) :
  Py.startswith c pre = true -> pre <> "" -> Py.truthy c = true.
Proof.
  unfold Py.startswith, Py.truthy. intros P Hne.
  apply prefix_split in P as [suf ->].
  destruct pre; [now destruct Hne | reflexivity].
Qed.

Lemma slice_from_own_path (h : ZooLock) (name : string) :
  Py.slice_from (own_path h name) (Py.len (path h) + 1) = name.
Proof.
  unfold Py.slice_from, Py.len, own_path.
  replace (Z.of_nat (String.length (path h)) + 1 <? 0)%Z with false
    by (symmetry; apply Z.ltb_ge; lia).
  replace (Z.to_nat (Z.of_nat (String.length (path h)) + 1))
    with (String.length (path h ++ "/"))
    by (rewrite length_append; simpl; lia).
  rewrite <- append_assoc. apply drop_append.
Qed.

Lemma init_prefix_nonempty (p : string) (c : option string) (u : string) :
  prefix (ZooLock_init p c u) <> "".
Proof.
  simpl. intros E. apply (f_equal String.length) in E.
  rewrite length_append in E. simpl in E. lia.
Qed.

(** ** The first step of the acquire body *)

Section AcquireNode.
Context {W : Type} `{ZkClient W}.

Lemma create_node_done (s : Sys W) (created : string) (w : W) :
  zk_create (create_path (self s)) (data (self s)) (zk s) = (Done created, w) ->
  create_node s =
  (Return (Py.slice_from created (Py.len (path (self s)) + 1)),
   after_call s (create_call (self s)) w).
Proof.
  intros E. unfold create_node, bind, get_self, client_create.
  now rewrite (request_done _ _ _ _ _ E).
Qed.

Lemma create_node_failed (s : Sys W) (e : zk_exn) (w : W) :
  zk_create (create_path (self s)) (data (self s)) (zk s) = (Failed e, w) ->
  create_node s = (Raise (ZkError e), after_call s (create_call (self s)) w).
Proof.
  intros E. unfold create_node, bind, get_self, client_create.
  now rewrite (request_failed _ _ _ _ _ E).
Qed.

Lemma acquire_node_first (s : Sys W) :
  create_tried (self s) = false ->
  acquire_node s = creating (with_self (set_create_tried true (self s)) s).
Proof.
  intros E. unfold acquire_node, creating, bind, get_self. rewrite E.
  unfold update_self, ret, named. simpl.
  now destruct (create_node _) as [[n|e|] s'].
Qed.

Lemma acquire_node_found (s : Sys W) (children : list string) (w : W)
    (c : string) :
  create_tried (self s) = true ->
  zk_get_children (path (self s)) (zk s) = (Done children, w) ->
  first_with_prefix (prefix (self s)) children = Some c ->
  Py.truthy c = true ->
  acquire_node s = (Return c, named c (after_call s (list_call (self s)) w)).
Proof.
  intros E El Ef Et. unfold acquire_node, bind, get_self. rewrite E.
  rewrite (find_node_done _ _ _ El), Ef, Et. reflexivity.
Qed.

Lemma acquire_node_missing (s : Sys W) (children : list string) (w : W) :
  create_tried (self s) = true ->
  zk_get_children (path (self s)) (zk s) = (Done children, w) ->
  Py.truthy_opt (first_with_prefix (prefix (self s)) children) = false ->
  acquire_node s = creating (after_call s (list_call (self s)) w).
Proof.
  intros E El Ef. unfold acquire_node, creating, bind, get_self. rewrite E.
  rewrite (find_node_done _ _ _ El).
  destruct (first_with_prefix (prefix (self s)) children) as [c|];
    simpl in Ef; rewrite ?Ef;
    unfold update_self, ret, named; simpl;
    now destruct (create_node _) as [[n|e|] s'].
Qed.

Lemma acquire_node_list_failed (s : Sys W) (e : zk_exn) (w : W) :
  create_tried (self s) = true ->
  zk_get_children (path (self s)) (zk s) = (Failed e, w) ->
  acquire_node s = (Raise (ZkError e), after_call s (list_call (self s)) w).
Proof.
  intros E El. unfold acquire_node, bind, get_self. rewrite E.
  now rewrite (find_node_failed _ _ _ El).
Qed.

Lemma creating_calls (s : Sys W) :
  calls (snd (creating s)) = (calls s ++ [create_call (self s)])%list.
Proof.
  unfold creating.
  destruct (zk_create (create_path (self s)) (data (self s)) (zk s))
    as [[created|e] w] eqn:E.
  - now rewrite (create_node_done _ _ _ E).
  - now rewrite (create_node_failed _ _ _ E).
Qed.

Lemma creating_self (s : Sys W) :
  create_tried (self (snd (creating s))) = create_tried (self s).
Proof.
  unfold creating.
  destruct (zk_create (create_path (self s)) (data (self s)) (zk s))
    as [[created|e] w] eqn:E.
  - now rewrite (create_node_done _ _ _ E).
  - now rewrite (create_node_failed _ _ _ E).
Qed.

Lemma creating_return (s : Sys W) (n : string) (s' : Sys W) :
  creating s = (Return n, s') ->
  node (self s') = Some n /\
  exists created w,
    zk_create (create_path (self s)) (data (self s)) (zk s) =
      (Done created, w) /\
    n = Py.slice_from created (Py.len (path (self s)) + 1) /\
    s' = named n (after_call s (create_call (self s)) w).
Proof.
  unfold creating.
  destruct (zk_create (create_path (self s)) (data (self s)) (zk s))
    as [[created|e] w] eqn:E.
  - rewrite (create_node_done _ _ _ E). intros [= <- <-].
    split; [reflexivity|]. now exists created, w.
  - rewrite (create_node_failed _ _ _ E). discriminate.
Qed.
Lemma creating_raise (s : Sys W) (e : exn) (s' : Sys W) :
  creating s = (Raise e, s') -> exists z, e = ZkError z.
Proof.
  unfold creating.
  destruct (zk_create (create_path (self s)) (data (self s)) (zk s))
    as [[created|z] w] eqn:E.
  - rewrite (create_node_done _ _ _ E). discriminate.
  - rewrite (create_node_failed _ _ _ E). intros [= <- <-]. now exists z.
Qed.

Lemma creating_not_running (s s' : Sys W) : creating s <> (Running, s').
Proof.
  unfold creating.
  destruct (zk_create (create_path (self s)) (data (self s)) (zk s))
    as [[created|z] w] eqn:E.
  - rewrite (create_node_done _ _ _ E). discriminate.
  - rewrite (create_node_failed _ _ _ E). discriminate.
Qed.

(** The ways step 1 can go. *)
Lemma acquire_node_cases (s : Sys W) :
  (exists s0, acquire_node s = creating s0) \/
  (exists children w c,
     create_tried (self s) = true /\
     zk_get_children (path (self s)) (zk s) = (Done children, w) /\
     first_match (prefix (self s)) children c /\
     acquire_node s =
       (Return c, named c (after_call s (list_call (self s)) w))) \/
  (exists z s', acquire_node s = (Raise (ZkError z), s')).
Proof.
  destruct (create_tried (self s)) eqn:E.
  - destruct (zk_get_children (path (self s)) (zk s)) as [[children|e] w]
      eqn:El.
    + destruct (Py.truthy_opt (first_with_prefix (prefix (self s)) children))
        eqn:Et.
      * destruct (first_with_prefix (prefix (self s)) children) as [c|]
          eqn:Ef; [|discriminate].
        right; left. exists children, w, c.
        split; [reflexivity|]. split; [reflexivity|]. split.
        -- now apply first_with_prefix_some.
        -- exact (acquire_node_found s children w c E El Ef Et).
      * left. eexists. now apply (acquire_node_missing s children w).
    + right; right. eexists _, _.
      now apply (acquire_node_list_failed s e w).
  - left. eexists. now apply acquire_node_first.
Qed.

Lemma acquire_node_raise (s : Sys W) (e : exn) (s' : Sys W) :
  acquire_node s = (Raise e, s') -> exists z, e = ZkError z.
Proof.
  destruct (acquire_node_cases s)
    as [[s0 E]|[[children [w [c [_ [_ [_ E]]]]]]|[z [s1 E]]]]; rewrite E.
  - apply creating_raise.
  - discriminate.
  - intros [= <- _]. now exists z.
Qed.

Lemma acquire_node_not_running (s s' : Sys W) :
  acquire_node s <> (Running, s').
Proof.
  destruct (acquire_node_cases s)
    as [[s0 E]|[[children [w [c [_ [_ [_ E]]]]]]|[z [s1 E]]]]; rewrite E.
  - apply creating_not_running.
  - discriminate.
  - discriminate.
Qed.

Lemma acquire_node_return_node (s : Sys W) (n : string) (s' : Sys W) :
  acquire_node s = (Return n, s') -> node (self s') = Some n.
Proof.
  destruct (acquire_node_cases s)
    as [[s0 E]|[[children [w [c [_ [_ [_ E]]]]]]|[z [s1 E]]]]; rewrite E.
  - intros Hc. now apply creating_return in Hc.
  - now intros [= <- <-].
  - discriminate.
Qed.
End AcquireNode.

Section AcquireNodeProperties.
Context {W : Type} `{ZkClient W}.

(** C3. Step 1 of the acquire body. On a first attempt ([createAttempted]
    false) the create of the node at [createPath] is the one request sent
    and [createAttempted] becomes true. On a later attempt the children
    are listed first, and a create is sent exactly when none of them
    starts with the prefix of the handle; a child found by the prefix is
    the name taken, without a create. Whenever step 1 completes,
    [nodeName] is the name it yields: the child found by the prefix, or
    the created path without the leading [path] and slash. *)
Theorem acquire_node_creates_or_rediscovers (s : Sys W) :
  let h := self s in
  (create_tried h = false ->
   calls (snd (acquire_node s)) = (calls s ++ [create_call h])%list /\
   create_tried (self (snd (acquire_node s))) = true) /\
  (create_tried h = true -> prefix h <> "" ->
   forall children w,
     zk_get_children (path h) (zk s) = (Done children, w) ->
     exists sent,
       calls (snd (acquire_node s)) = (calls s ++ list_call h :: sent)%list /\
       (In (create_call h) sent <->
        forall c, In c children -> Py.startswith c (prefix h) = false) /\
       (forall c, first_match (prefix h) children c ->
          acquire_node s = (Return c, named c (after_call s (list_call h) w)) /\
          sent = []) /\
       create_tried (self (snd (acquire_node s))) = true) /\
  (forall n s',
     acquire_node s = (Return n, s') ->
     node (self s') = Some n /\
     ((exists children w,
         create_tried h = true /\
         zk_get_children (path h) (zk s) = (Done children, w) /\
         first_match (prefix h) children n) \/
      (exists created w0 w,
         zk_create (create_path h) (data h) w0 = (Done created, w) /\
         n = Py.slice_from created (Py.len (path h) + 1) /\
         forall name, created = own_path h name -> n = name))).
Proof.
  intros h. split; [|split].
  - intros E. rewrite (acquire_node_first s E).
    now rewrite creating_calls, creating_self.
  - intros E Hne children w El.
    destruct (first_with_prefix (prefix h) children) as [c|] eqn:Ef.
    + assert (Hc : first_match (prefix h) children c)
        by now apply first_with_prefix_some.
      assert (Ht : Py.truthy c = true).
      { destruct Hc as [b [a [_ [P _]]]]. eapply startswith_truthy; eauto. }
      exists []. rewrite (acquire_node_found s children w c E El Ef Ht).
      split; [reflexivity|]. split; [|split].
      * split; [intros []|]. intros Hn.
        apply first_with_prefix_none in Hn. fold h in Ef. congruence.
      * intros c' Hc'. apply first_with_prefix_some in Hc'.
        fold h in Ef. rewrite Ef in Hc'. now injection Hc' as <-.
      * exact E.
    + exists [create_call h].
      assert (Et : Py.truthy_opt (first_with_prefix (prefix h) children)
                   = false) by now rewrite Ef.
      rewrite (acquire_node_missing s children w E El Et).
      rewrite creating_calls, creating_self.
      split; [simpl; now rewrite <- app_assoc|]. split; [|split].
      * split; [intros _; now apply first_with_prefix_none | intros _; now left].
      * intros c Hc. apply first_with_prefix_some in Hc. congruence.
      * exact E.
  - intros n s' En.
    destruct (create_tried h) eqn:E.
    + destruct (zk_get_children (path h) (zk s)) as [[children|e] w] eqn:El.
      * destruct (first_with_prefix (prefix h) children) as [c|] eqn:Ef.
        -- destruct (Py.truthy c) eqn:Ht.
           ++ rewrite (acquire_node_found s children w c E El Ef Ht) in En.
              injection En as <- <-. split; [reflexivity|].
              left. exists children, w.
              repeat split; auto. now apply first_with_prefix_some.
           ++ assert (Et : Py.truthy_opt
                             (first_with_prefix (prefix h) children) = false)
                by now rewrite Ef.
              pose proof (acquire_node_missing s children w E El Et) as Ec.
              rewrite Ec in En.
              apply creating_return in En as [Hn [created [w1 [Ez [-> _]]]]].
              split; [exact Hn|]. right. exists created, w, w1.
              repeat split; auto.
              intros name ->. exact (slice_from_own_path h name).
        -- assert (Et : Py.truthy_opt
                          (first_with_prefix (prefix h) children) = false)
             by now rewrite Ef.
           rewrite (acquire_node_missing s children w E El Et) in En.
           apply creating_return in En as [Hn [created [w1 [Ez [-> _]]]]].
           split; [exact Hn|]. right. exists created, w, w1.
           repeat split; auto.
           intros name ->. exact (slice_from_own_path h name).
      * rewrite (acquire_node_list_failed s e w E El) in En. discriminate.
    + rewrite (acquire_node_first s E) in En.
      apply creating_return in En as [Hn [created [w1 [Ez [-> _]]]]].
      split; [exact Hn|]. right. exists created, (zk s), w1.
      repeat split; auto.
      intros name ->. exact (slice_from_own_path h name).
Qed.

End AcquireNodeProperties.

(** alice's first attempt on an empty lock, and her second attempt after
    the answer to her create was lost: the node is there and is found
    again by its prefix. *)
Lemma acquire_node_creates_or_rediscovers_witness :
  let first := MemZk.start alice (MemZk.holding [] 1) in
  let w := MemZk.holding [alice_node] 2 in
  let again := MemZk.start (set_create_tried true alice) w in
  (calls (snd (acquire_node first)) = [create_call alice] /\
   create_tried (self (snd (acquire_node first))) = true) /\
  (exists sent,
     calls (snd (acquire_node again)) = list_call alice :: sent /\
     (In (create_call alice) sent <->
      forall c, In c ["a11ce_lock_0000000001"] ->
                Py.startswith c (prefix alice) = false) /\
     (forall c, first_match (prefix alice) ["a11ce_lock_0000000001"] c ->
        acquire_node again =
          (Return c, named c (after_call again (list_call alice) w)) /\
        sent = []) /\
     create_tried (self (snd (acquire_node again))) = true) /\
  node (self (snd (acquire_node again))) = Some "a11ce_lock_0000000001".
Proof.
  intros first w again.
  destruct (acquire_node_creates_or_rediscovers first) as [H1 _].
  destruct (acquire_node_creates_or_rediscovers again) as [_ [H2 H3]].
  split; [exact (H1 eq_refl)|]. split.
  - apply (H2 eq_refl); [discriminate | reflexivity].
  - exact (proj1 (H3 _ _ eq_refl)).
Defined.

(** ** What the methods do to the lock object *)

Section Frame.
Context {W : Type} `{ZkClient W}.
Variable R : ZooLock -> ZooLock -> Prop.
Hypothesis R_refl : forall h, R h h.
Hypothesis R_trans : forall h1 h2 h3, R h1 h2 -> R h2 h3 -> R h1 h3.

Lemma keeps_ret {A} (a : A) : keeps R (@ret W A a).
Proof. intros s. apply R_refl. Qed.

Lemma keeps_raise {A} (e : exn) : keeps R (@raise W A e).
Proof. intros s. apply R_refl. Qed.

Lemma keeps_running {A} : keeps R (@running W A).
Proof. intros s. apply R_refl. Qed.

Lemma keeps_get_self : keeps R (@get_self W).
Proof. intros s. apply R_refl. Qed.

Lemma keeps_request {A} (c : Call) (op : W -> reply A * W) :
  keeps R (request c op).
Proof.
  intros s. unfold request.
  destruct (op (zk s)) as [[a|e] w]; apply R_refl.
Qed.

Lemma keeps_wait : keeps R (@condition_wait W _).
Proof. intros s. apply R_refl. Qed.

Lemma keeps_update (f : ZooLock -> ZooLock) :
  (forall h, R h (f h)) -> keeps R (@update_self W f).
Proof. intros Hf s. apply Hf. Qed.

Lemma keeps_bind {A B} (m : M W A) (k : A -> M W B) :
  keeps R m -> (forall a, keeps R (k a)) -> keeps R (bind m k).
Proof.
  intros Hm Hk s. unfold bind. specialize (Hm s).
  destruct (m s) as [[a|e|] s1]; simpl in *; auto.
  eapply R_trans; [exact Hm | apply Hk].
Qed.

Lemma keeps_try_except {A} (m : M W A) (handler : exn -> M W A) :
  keeps R m -> (forall e, keeps R (handler e)) ->
  keeps R (try_except m handler).
Proof.
  intros Hm Hh s. unfold try_except. specialize (Hm s).
  destruct (m s) as [[a|e|] s1]; simpl in *; auto.
  eapply R_trans; [exact Hm | apply Hh].
Qed.

Lemma keeps_retry {A} (op : M W A) (tries : nat) :
  keeps R op -> keeps R (retry tries op).
Proof.
  intros Hop. induction tries as [|tries IH]; simpl.
  - apply keeps_running.
  - apply keeps_try_except; [exact Hop|].
    intros e. destruct (retryable e); [exact IH | apply keeps_raise].
Qed.

Ltac keeps_step :=
  first
    [ apply keeps_ret | apply keeps_raise | apply keeps_running
    | apply keeps_get_self | apply keeps_request | apply keeps_wait
    | apply keeps_bind; [|intros ?]
    | apply keeps_try_except; [|intros ?]
    | match goal with
      | |- keeps _ (if ?b then _ else _) => destruct b
      | |- keeps _ (match ?x with _ => _ end) => destruct x
      end ].

Lemma keeps_find_node : keeps R (@_find_node W _).
Proof. unfold _find_node, client_get_children. repeat keeps_step. Qed.

Lemma keeps_sorted_children : keeps R (@_get_sorted_children W _).
Proof.
  unfold _get_sorted_children, client_get_children. repeat keeps_step.
Qed.

Lemma keeps_round (n : string) : keeps R (acquire_round n).
Proof.
  unfold acquire_round, client_exists.
  apply keeps_bind; [apply keeps_sorted_children|]. intros children.
  repeat keeps_step.
Qed.

Lemma keeps_loop (rounds : nat) (n : string) :
  keeps R (acquire_loop rounds n).
Proof.
  induction rounds as [|rounds IH]; simpl.
  - apply keeps_running.
  - apply keeps_bind; [apply keeps_round|].
    intros [b|]; [apply keeps_ret | exact IH].
Qed.

Lemma keeps_cleanup : keeps R (@_best_effort_cleanup W _).
Proof.
  unfold _best_effort_cleanup, client_delete.
  apply keeps_try_except; [|intros; apply keeps_ret].
  apply keeps_bind; [apply keeps_find_node|]. intros found.
  repeat keeps_step.
Qed.

Lemma keeps_collect (p : string) (children contenders : list string) :
  keeps R (collect_contenders p children contenders).
Proof.
  revert contenders. induction children as [|c l IH]; intros; simpl.
  - apply keeps_ret.
  - apply keeps_bind; [|intros; apply IH].
    unfold client_get. repeat keeps_step.
Qed.

Lemma keeps_get_contenders : keeps R (@get_contenders W _).
Proof.
  unfold get_contenders.
  apply keeps_bind; [apply keeps_sorted_children|]. intros children.
  apply keeps_bind; [apply keeps_get_self|]. intros h.
  apply keeps_collect.
Qed.

Hypothesis R_tried : forall h, R h (set_create_tried true h).
Hypothesis R_node : forall n h, R h (set_node n h).

Lemma keeps_acquire_node : keeps R (@acquire_node W _).
Proof.
  unfold acquire_node, create_node, client_create.
  apply keeps_bind; [apply keeps_get_self|]. intros h.
  apply keeps_bind.
  - destruct (create_tried h); [apply keeps_find_node|].
    apply keeps_bind; [now apply keeps_update | intros; apply keeps_ret].
  - intros found. apply keeps_bind.
    + repeat keeps_step.
    + intros n. apply keeps_bind; [apply keeps_update; apply R_node|].
      intros; apply keeps_ret.
Qed.

Lemma keeps_inner_acquire (rounds : nat) :
  keeps R (_inner_acquire rounds).
Proof.
  unfold _inner_acquire.
  apply keeps_bind; [apply keeps_acquire_node | intros; apply keeps_loop].
Qed.

Hypothesis R_acquired : forall b h, R h (set_is_acquired b h).

Lemma keeps_acquire (tries rounds : nat) : keeps R (acquire tries rounds).
Proof.
  unfold acquire. apply keeps_try_except.
  - apply keeps_bind.
    + apply keeps_retry, keeps_inner_acquire.
    + intros _. apply keeps_update, R_acquired.
  - intros e. apply keeps_bind; [apply keeps_cleanup|].
    intros; apply keeps_raise.
Qed.

Lemma keeps_inner_release : keeps R (@_inner_release W _).
Proof.
  unfold _inner_release, client_delete.
  apply keeps_bind; [apply keeps_get_self|]. intros h.
  destruct (negb (is_acquired h)); [apply keeps_ret|].
  destruct (node h); [|apply keeps_raise].
  apply keeps_bind; [apply keeps_request|]. intros _.
  apply keeps_bind; [apply keeps_update, R_acquired|]. intros _.
  apply keeps_bind; [apply keeps_update, R_node|]. intros _.
  apply keeps_ret.
Qed.

Lemma keeps_release (tries : nat) : keeps R (release tries).
Proof. apply keeps_retry, keeps_inner_release. Qed.
End Frame.

(** ** [create_tried] over the lifetime of a handle *)

Section CreateTried.
Context {W : Type} `{ZkClient W}.

Lemma tried_kept_refl (h : ZooLock) : tried_kept h h.
Proof. now left. Qed.

Lemma tried_kept_trans (h1 h2 h3 : ZooLock) :
  tried_kept h1 h2 -> tried_kept h2 h3 -> tried_kept h1 h3.
Proof.
  unfold tried_kept. intros [E1|E1] [E2|E2]; rewrite ?E2, ?E1; auto.
Qed.

Lemma tried_kept_method (m : method) (s : Sys W) :
  tried_kept (self s) (self (call_method m s)).
Proof.
  pose proof tried_kept_refl as Hr. pose proof tried_kept_trans as Ht.
  assert (H1 : forall h, tried_kept h (set_create_tried true h))
    by (now right).
  assert (H2 : forall n h, tried_kept h (set_node n h)) by (now left).
  assert (H3 : forall b h, tried_kept h (set_is_acquired b h))
    by (now left).
  destruct m; simpl.
  - now apply keeps_acquire.
  - now apply keeps_inner_acquire.
  - now apply keeps_release.
  - now apply keeps_inner_release.
  - now apply keeps_get_contenders.
  - now apply keeps_cleanup.
  - now apply keeps_find_node.
  - now apply keeps_sorted_children.
Qed.

(** C9. [create_tried] is false in a new handle, every method of the
    handle leaves it as it was or sets it to true, and once true it stays
    true through any sequence of calls. *)
Theorem create_tried_monotonic :
  (forall p c u, create_tried (ZooLock_init p c u) = false) /\
  (forall (m : method) (s : Sys W),
     create_tried (self (call_method m s)) = create_tried (self s) \/
     create_tried (self (call_method m s)) = true) /\
  (forall (ms : list method) (s : Sys W),
     create_tried (self s) = true ->
     create_tried (self (lifetime ms s)) = true).
Proof.
  split; [reflexivity|]. split.
  - intros m s. apply tried_kept_method.
  - intros ms. induction ms as [|m ms IH]; intros s E; simpl; auto.
    apply IH. destruct (tried_kept_method m s) as [E'|E']; congruence.
Qed.

End CreateTried.

(** alice acquires, releases, fails to acquire again and lists the
    contenders: the flag set by her first acquire is still set. *)
Lemma create_tried_monotonic_witness :
  let s := MemZk.start alice (MemZk.holding [bob_node] 3) in
  let s1 := lifetime [Acquire 1 1] s in
  create_tried (self s1) = true /\
  create_tried
    (self (lifetime [Release 2; Acquire 2 2; GetContenders; Release 1] s1))
  = true.
Proof.
  intros s s1.
  destruct (@create_tried_monotonic MemZk.t _) as [_ [_ H]].
  split; [reflexivity|].
  exact (H [Release 2; Acquire 2 2; GetContenders; Release 1] s1 eq_refl).
Defined.

(** ** One round of the waiting loop *)

Lemma index_none (x : string) (l : list string) :
  Py.index x l = None <-> ~ In x l.
Proof.
  induction l as [|y l IH]; simpl.
  - split; auto.
  - destruct (String.eqb_spec y x) as [->|N].
    + split; [discriminate | intros Hn; destruct Hn; now left].
    + destruct (Py.index x l) as [i|]; simpl.
      * split; [discriminate|]. intros Hn.
        assert (Hx : ~ In x l) by (intros Hin; apply Hn; now right).
        apply IH in Hx. discriminate.
      * split; [|reflexivity]. intros _ [E|Hin]; [congruence|].
        now apply (proj1 IH).
Qed.

Lemma index_some (x : string) (l : list string) (i : nat) :
  Py.index x l = Some i -> nth_error l i = Some x.
Proof.
  revert i; induction l as [|y l IH]; intros i; simpl; [discriminate|].
  destruct (String.eqb_spec y x) as [->|N].
  - now intros [= <-].
  - destruct (Py.index x l) as [j|]; simpl; [|discriminate].
    intros [= <-]. simpl. now apply IH.
Qed.

Section Round.
Context {W : Type} `{ZkClient W}.

Lemma round_list_failed (s : Sys W) (n : string) (e : zk_exn) (w : W) :
  zk_get_children (path (self s)) (zk s) = (Failed e, w) ->
  acquire_round n s =
  (Raise (ZkError e), after_call s (list_call (self s)) w).
Proof.
  intros E. unfold acquire_round, bind.
  now rewrite (get_sorted_children_failed _ _ _ E).
Qed.

Lemma round_absent (s : Sys W) (n : string) (children : list string)
    (w : W) :
  zk_get_children (path (self s)) (zk s) = (Done children, w) ->
  Py.index n (Py.sort sort_key children) = None ->
  acquire_round n s =
  (Raise ForceRetryError, after_call s (list_call (self s)) w).
Proof.
  intros E Ei. unfold acquire_round, bind.
  now rewrite (get_sorted_children_done _ _ _ E), Ei.
Qed.

Lemma round_first (s : Sys W) (n : string) (children : list string)
    (w : W) :
  zk_get_children (path (self s)) (zk s) = (Done children, w) ->
  Py.index n (Py.sort sort_key children) = Some 0 ->
  acquire_round n s =
  (Return (Some true), after_call s (list_call (self s)) w).
Proof.
  intros E Ei. unfold acquire_round, bind.
  now rewrite (get_sorted_children_done _ _ _ E), Ei.
Qed.

Lemma round_behind (s : Sys W) (n : string) (children : list string)
    (w : W) (i : nat) :
  zk_get_children (path (self s)) (zk s) = (Done children, w) ->
  Py.index n (Py.sort sort_key children) = Some (S i) ->
  let predecessor :=
    own_path (self s) (nth i (Py.sort sort_key children) "") in
  let s1 := after_call s (list_call (self s)) w in
  acquire_round n s =
  match zk_exists predecessor w with
  | (Done (Some _), w2) =>
      (Return None,
       after_call (after_call s1 (CExists predecessor) w2) CWait
         (cond_wait w2))
  | (Done None, w2) =>
      (Return None, after_call s1 (CExists predecessor) w2)
  | (Failed e, w2) =>
      (Raise (ZkError e), after_call s1 (CExists predecessor) w2)
  end.
Proof.
  intros E Ei predecessor s1. unfold acquire_round, bind.
  rewrite (get_sorted_children_done _ _ _ E), Ei.
  destruct (zk_exists predecessor w) as [[[st|]|e] w2] eqn:Ex;
    unfold predecessor, own_path in Ex; simpl in Ex |- *;
    rewrite Nat.sub_0_r; unfold client_exists, request; simpl;
    rewrite Ex; reflexivity.
Qed.

(** A round hands back a value only as [return True], and only when the
    name is the first of the sorted children. *)
Lemma round_return_inv (s : Sys W) (n : string) (b : bool) (s' : Sys W) :
  acquire_round n s = (Return (Some b), s') ->
  b = true /\
  exists children,
    zk_get_children (path (self s)) (zk s) = (Done children, zk s') /\
    Py.index n (Py.sort sort_key children) = Some 0 /\
    s' = after_call s (list_call (self s)) (zk s').
Proof.
  destruct (zk_get_children (path (self s)) (zk s)) as [[children|e] w]
    eqn:E.
  - destruct (Py.index n (Py.sort sort_key children)) as [[|i]|] eqn:Ei.
    + rewrite (round_first _ _ _ _ E Ei). intros [= <- <-].
      split; [reflexivity|]. now exists children.
    + rewrite (round_behind _ _ _ _ _ E Ei).
      destruct (zk_exists _ w) as [[[st|]|e] w2]; discriminate.
    + rewrite (round_absent _ _ _ _ E Ei). discriminate.
  - rewrite (round_list_failed _ _ _ _ E). discriminate.
Qed.

(** A round raises [ForceRetryError] only when the name is not among the
    listed children. *)
Lemma round_force_retry_inv (s : Sys W) (n : string) (s' : Sys W) :
  acquire_round n s = (Raise ForceRetryError, s') ->
  exists children,
    zk_get_children (path (self s)) (zk s) = (Done children, zk s') /\
    ~ In n children /\
    s' = after_call s (list_call (self s)) (zk s').
Proof.
  destruct (zk_get_children (path (self s)) (zk s)) as [[children|e] w]
    eqn:E.
  - destruct (Py.index n (Py.sort sort_key children)) as [[|i]|] eqn:Ei.
    + rewrite (round_first _ _ _ _ E Ei). discriminate.
    + rewrite (round_behind _ _ _ _ _ E Ei).
      destruct (zk_exists _ w) as [[[st|]|e] w2]; discriminate.
    + rewrite (round_absent _ _ _ _ E Ei). intros [= <-].
      exists children. split; [reflexivity|]. split; [|reflexivity].
      apply index_none in Ei. intros Hin. apply Ei.
      eapply Permutation_in; [apply sort_perm | exact Hin].
  - rewrite (round_list_failed _ _ _ _ E). discriminate.
Qed.
End Round.

(** ** The acquire body and [acquire] *)

Section Body.
Context {W : Type} `{ZkClient W}.

Lemma round_self (n : string) (s : Sys W) :
  self (snd (acquire_round n s)) = self s.
Proof.
  symmetry. apply (keeps_round eq); [reflexivity | intros; congruence].
Qed.

Lemma acquire_node_path (s : Sys W) :
  path (self (snd (acquire_node s))) = path (self s).
Proof.
  apply (keeps_acquire_node (fun h h' => path h' = path h));
    try reflexivity.
  intros h1 h2 h3 E1 E2. congruence.
Qed.

Lemma loop_return_inv (rounds : nat) (n : string) (s : Sys W) (b : bool)
    (s' : Sys W) :
  acquire_loop rounds n s = (Return b, s') ->
  b = true /\ self s' = self s /\
  exists s0 children,
    self s0 = self s /\
    zk_get_children (path (self s0)) (zk s0) = (Done children, zk s') /\
    Py.index n (Py.sort sort_key children) = Some 0 /\
    s' = after_call s0 (list_call (self s0)) (zk s').
Proof.
  revert s; induction rounds as [|rounds IH]; intros s; simpl.
  - discriminate.
  - unfold bind. pose proof (round_self n s) as Es.
    destruct (acquire_round n s) as [[[b0|]|e|] s1] eqn:Er; simpl in Es;
      try discriminate.
    + intros [= <- <-].
      destruct (round_return_inv _ _ _ _ Er) as [-> [children [El [Ei E']]]].
      split; [reflexivity|]. split; [exact Es|].
      now exists s, children.
    + intros El. destruct (IH _ El) as [-> [Es' [s0 [children [E0 Hc]]]]].
      split; [reflexivity|]. split; [congruence|].
      exists s0, children. split; [congruence | exact Hc].
Qed.

Lemma loop_force_retry_inv (rounds : nat) (n : string) (s s' : Sys W) :
  acquire_loop rounds n s = (Raise ForceRetryError, s') ->
  self s' = self s /\
  exists s0 children,
    self s0 = self s /\
    zk_get_children (path (self s0)) (zk s0) = (Done children, zk s') /\
    ~ In n children /\
    s' = after_call s0 (list_call (self s0)) (zk s').
Proof.
  revert s; induction rounds as [|rounds IH]; intros s; simpl.
  - discriminate.
  - unfold bind. pose proof (round_self n s) as Es.
    destruct (acquire_round n s) as [[[b0|]|e|] s1] eqn:Er; simpl in Es;
      try discriminate.
    + intros El. destruct (IH _ El) as [Es' [s0 [children [E0 Hc]]]].
      split; [congruence|].
      exists s0, children. split; [congruence | exact Hc].
    + intros [= -> <-].
      destruct (round_force_retry_inv _ _ _ Er) as [children [El [Hn E']]].
      split; [exact Es|]. now exists s, children.
Qed.

Lemma inner_acquire_inv (rounds : nat) (s : Sys W) (o : outcome bool)
    (s' : Sys W) :
  _inner_acquire rounds s = (o, s') ->
  (exists z, o = Raise (ZkError z)) \/
  (exists n s1,
     acquire_node s = (Return n, s1) /\
     acquire_loop rounds n s1 = (o, s')).
Proof.
  unfold _inner_acquire, bind.
  destruct (acquire_node s) as [[n|e|] s1] eqn:En.
  - intros El. right. now exists n, s1.
  - intros [= <- <-]. left.
    destruct (acquire_node_raise _ _ _ En) as [z ->]. now exists z.
  - now apply acquire_node_not_running in En.
Qed.

Lemma cleanup_list_failed (s : Sys W) (e : zk_exn) (w : W) :
  zk_get_children (path (self s)) (zk s) = (Failed e, w) ->
  _best_effort_cleanup s = (Return tt, after_call s (list_call (self s)) w).
Proof.
  intros El. unfold _best_effort_cleanup, try_except, bind.
  now rewrite (find_node_failed _ _ _ El).
Qed.

Lemma cleanup_nothing (s : Sys W) (children : list string) (w : W) :
  zk_get_children (path (self s)) (zk s) = (Done children, w) ->
  Py.truthy_opt (first_with_prefix (prefix (self s)) children) = false ->
  _best_effort_cleanup s = (Return tt, after_call s (list_call (self s)) w).
Proof.
  intros El Et. unfold _best_effort_cleanup, try_except, bind.
  rewrite (find_node_done _ _ _ El).
  destruct (first_with_prefix (prefix (self s)) children) as [c|];
    simpl in Et; rewrite ?Et; reflexivity.
Qed.

Lemma cleanup_found (s : Sys W) (children : list string) (w : W)
    (c : string) :
  zk_get_children (path (self s)) (zk s) = (Done children, w) ->
  first_with_prefix (prefix (self s)) children = Some c ->
  Py.truthy c = true ->
  _best_effort_cleanup s =
  (Return tt,
   after_call (after_call s (list_call (self s)) w)
     (CDelete (own_path (self s) c))
     (snd (zk_delete (own_path (self s) c) w))).
Proof.
  intros El Ef Et. unfold _best_effort_cleanup, try_except, bind.
  rewrite (find_node_done _ _ _ El), Ef, Et.
  unfold get_self, client_delete, request, ret. simpl.
  change (path (self s) ++ String "/" c) with (own_path (self s) c).
  now destruct (zk_delete (own_path (self s) c) w) as [[[]|e] w'].
Qed.

Lemma cleanup_returns (s : Sys W) :
  exists s', _best_effort_cleanup s = (Return tt, s').
Proof.
  destruct (zk_get_children (path (self s)) (zk s)) as [[children|e] w]
    eqn:El.
  - destruct (Py.truthy_opt (first_with_prefix (prefix (self s)) children))
      eqn:Et.
    + destruct (first_with_prefix (prefix (self s)) children) as [c|]
        eqn:Ef; [|discriminate].
      eexists. exact (cleanup_found s children w c El Ef Et).
    + eexists. exact (cleanup_nothing s children w El Et).
  - eexists. exact (cleanup_list_failed s e w El).
Qed.

Lemma acquire_eq (tries rounds : nat) (s : Sys W) :
  acquire tries rounds s =
  match retry tries (_inner_acquire rounds) s with
  | (Return _, s1) => (Return tt, with_self (set_is_acquired true (self s1)) s1)
  | (Raise e, s1) => (Raise e, snd (_best_effort_cleanup s1))
  | (Running, s1) => (Running, s1)
  end.
Proof.
  unfold acquire, try_except, bind.
  destruct (retry tries (_inner_acquire rounds) s) as [[b|e|] s1];
    try reflexivity.
  destruct (cleanup_returns s1) as [s2 ->]. reflexivity.
Qed.
End Body.

Section AcquireProperties.
Context {W : Type} `{ZkClient W}.


(** C6. A round of the acquire body raises [ForceRetryError] exactly when
    the name is not among the listed children, and the body raises it only
    from such a round; the retry executor answers it by invoking the body
    again, and [acquire()] never raises it. *)
Theorem force_retry_only_when_absent (s : Sys W) (n : string) :
  let h := self s in
  ((exists s', acquire_round n s = (Raise ForceRetryError, s')) <->
   (exists children w,
      zk_get_children (path h) (zk s) = (Done children, w) /\
      ~ In n children)) /\
  (forall rounds s',
     _inner_acquire rounds s = (Raise ForceRetryError, s') ->
     exists m s0 children,
       node (self s') = Some m /\
       zk_get_children (path h) (zk s0) = (Done children, zk s') /\
       ~ In m children /\
       s' = after_call s0 (list_call h) (zk s')) /\
  (forall tries rounds s1,
     _inner_acquire rounds s = (Raise ForceRetryError, s1) ->
     retry (S tries) (_inner_acquire rounds) s =
     retry tries (_inner_acquire rounds) s1) /\
  (forall tries rounds,
     fst (acquire tries rounds s) <> Raise ForceRetryError).
Proof.
  intros h. split; [|split; [|split]].
  - split.
    + intros [s' Er].
      destruct (round_force_retry_inv _ _ _ Er) as [children [El [Hn _]]].
      now exists children, (zk s').
    + intros [children [w [El Hn]]]. eexists.
      apply (round_absent s n children w El).
      apply index_none. intros Hin. apply Hn.
      eapply Permutation_in; [apply Permutation_sym, sort_perm | exact Hin].
  - intros rounds s' Eb.
    destruct (inner_acquire_inv _ _ _ _ Eb) as [[z Ez]|[m [s1 [En El]]]];
      [discriminate|].
    destruct (loop_force_retry_inv _ _ _ _ El)
      as [Es [s0 [children [E0 [Ec [Hn E']]]]]].
    assert (Ep : path (self s0) = path h).
    { rewrite E0. pose proof (acquire_node_path s) as Ep.
      now rewrite En in Ep. }
    exists m, s0, children.
    split; [|split; [|split; [exact Hn|]]].
    + rewrite Es. exact (acquire_node_return_node _ _ _ En).
    + now rewrite <- Ep.
    + unfold list_call in *. now rewrite <- Ep.
  - intros tries rounds s1 Eb.
    exact (retry_again _ tries s s1 ForceRetryError Eb eq_refl).
  - intros tries rounds. rewrite acquire_eq.
    destruct (retry tries (_inner_acquire rounds) s) as [[b|e|] s1] eqn:Er;
      simpl; try discriminate.
    apply retry_raise_fatal in Er. intros [= ->]. discriminate.
Qed.

(** C7. When the retry executor lets a failure out of the acquire body,
    [acquire()] looks for the node of the handle by its prefix, deletes it
    if it finds it, ignores whatever goes wrong in doing so, and raises
    the failure it had. *)
Theorem acquire_failure_cleans_up (s : Sys W) (tries rounds : nat)
    (e : exn) (s1 : Sys W) :
  retry tries (_inner_acquire rounds) s = (Raise e, s1) ->
  let h := self s1 in
  exists s2,
    acquire tries rounds s = (Raise e, s2) /\
    _best_effort_cleanup s1 = (Return tt, s2) /\
    self s2 = h /\
    (forall children w c,
       prefix h <> "" ->
       zk_get_children (path h) (zk s1) = (Done children, w) ->
       first_match (prefix h) children c ->
       calls s2 = (calls s1 ++ [list_call h; CDelete (own_path h c)])%list /\
       zk s2 = snd (zk_delete (own_path h c) w)) /\
    (forall children w,
       zk_get_children (path h) (zk s1) = (Done children, w) ->
       (forall c, In c children -> Py.startswith c (prefix h) = false) ->
       calls s2 = (calls s1 ++ [list_call h])%list /\ zk s2 = w) /\
    (forall z w,
       zk_get_children (path h) (zk s1) = (Failed z, w) ->
       calls s2 = (calls s1 ++ [list_call h])%list /\ zk s2 = w).
Proof.
  intros Er h. destruct (cleanup_returns s1) as [s2 Ec]. exists s2.
  split; [now rewrite acquire_eq, Er, Ec|]. split; [exact Ec|].
  split; [|split; [|split]].
  - pose proof (keeps_cleanup eq (@eq_refl _) (@eq_trans _) s1) as Ek.
    rewrite Ec in Ek. now symmetry.
  - intros children w c Hne El Hc.
    assert (Ef : first_with_prefix (prefix h) children = Some c)
      by now apply first_with_prefix_some.
    assert (Ht : Py.truthy c = true).
    { destruct Hc as [b [a [_ [P _]]]]. eapply startswith_truthy; eauto. }
    rewrite (cleanup_found s1 children w c El Ef Ht) in Ec.
    injection Ec as <-. split; [simpl; now rewrite <- app_assoc | reflexivity].
  - intros children w El Hn.
    assert (Et : Py.truthy_opt (first_with_prefix (prefix h) children) = false)
      by (apply first_with_prefix_none in Hn; now rewrite Hn).
    rewrite (cleanup_nothing s1 children w El Et) in Ec.
    injection Ec as <-. now split.
  - intros z w El. rewrite (cleanup_list_failed s1 z w El) in Ec.
    injection Ec as <-. now split.
Qed.

End AcquireProperties.


(** alice's node vanishes after her create: the body raises
    [ForceRetryError], and the executor runs the body again. *)
Lemma force_retry_only_when_absent_witness :
  let s1 := snd (_inner_acquire 2 alice_reaped) in
  (exists m s0 children,
     node (self s1) = Some m /\
     zk_get_children "/locks/demo" (zk s0) = (Done children, zk s1) /\
     ~ In m children /\
     s1 = after_call s0 (CGetChildren "/locks/demo") (zk s1)) /\
  retry 2 (_inner_acquire 2) alice_reaped = retry 1 (_inner_acquire 2) s1.
Proof.
  intros s1.
  destruct (force_retry_only_when_absent alice_reaped "")
    as [_ [Hbody [Hretry _]]].
  split.
  - exact (Hbody 2 s1 eq_refl).
  - exact (Hretry 1 2 s1 eq_refl).
Defined.

(** alice's create was carried out but answered by a session expiry: the
    failure is fatal, her node is found by its prefix and deleted, and the
    expiry is what [acquire()] raises. *)
Lemma acquire_failure_cleans_up_witness :
  let e := ZkError SessionExpiredException in
  let s1 := snd (retry 2 (_inner_acquire 2) alice_lost) in
  retry 2 (_inner_acquire 2) alice_lost = (Raise e, s1) /\
  exists s2,
    acquire 2 2 alice_lost = (Raise e, s2) /\
    _best_effort_cleanup s1 = (Return tt, s2) /\
    self s2 = self s1 /\
    calls s2 =
      [CCreate "/locks/demo/a11ce_lock_" "alice";
       CGetChildren "/locks/demo";
       CDelete "/locks/demo/a11ce_lock_0000000001"] /\
    zk s2 = MemZk.holding [] 2.
Proof.
  intros e s1.
  assert (Er : retry 2 (_inner_acquire 2) alice_lost = (Raise e, s1))
    by reflexivity.
  split; [exact Er|].
  destruct (acquire_failure_cleans_up alice_lost 2 2 e s1 Er)
    as [s2 [Ea [Ec [Es [Hfound _]]]]].
  exists s2. split; [exact Ea|]. split; [exact Ec|]. split; [exact Es|].
  apply (Hfound ["a11ce_lock_0000000001"] (MemZk.holding [alice_node] 2)
           "a11ce_lock_0000000001").
  - discriminate.
  - reflexivity.
  - exists [], []. split; [reflexivity|]. split; [reflexivity|].
    intros x [].
Defined.

(** ** Listing the contenders *)

Section Contenders.
Context {W : Type} `{ZkClient W}.

Lemma collect_cons_done (h : ZooLock) (c : string) (l contenders : list string)
    (s : Sys W) (d : string) (st : Stat) (w : W) :
  zk_get (own_path h c) (zk s) = (Done (d, st), w) ->
  collect_contenders (path h) (c :: l) contenders s =
  collect_contenders (path h) l (contenders ++ [d])%list
    (after_call s (CGet (own_path h c)) w).
Proof.
  intros E. simpl. unfold bind, try_except, client_get.
  change (path h ++ String "/" c) with (own_path h c).
  now rewrite (request_done _ _ _ _ _ E).
Qed.

Lemma collect_cons_gone (h : ZooLock) (c : string) (l contenders : list string)
    (s : Sys W) (w : W) :
  zk_get (own_path h c) (zk s) = (Failed NoNodeException, w) ->
  collect_contenders (path h) (c :: l) contenders s =
  collect_contenders (path h) l contenders
    (after_call s (CGet (own_path h c)) w).
Proof.
  intros E. simpl. unfold bind, try_except, client_get.
  change (path h ++ String "/" c) with (own_path h c).
  now rewrite (request_failed _ _ _ _ _ E).
Qed.

Lemma collect_cons_failed (h : ZooLock) (c : string)
    (l contenders : list string) (s : Sys W) (e : zk_exn) (w : W) :
  zk_get (own_path h c) (zk s) = (Failed e, w) ->
  e <> NoNodeException ->
  collect_contenders (path h) (c :: l) contenders s =
  (Raise (ZkError e), after_call s (CGet (own_path h c)) w).
Proof.
  intros E Hne. simpl. unfold bind, try_except, client_get.
  change (path h ++ String "/" c) with (own_path h c).
  rewrite (request_failed _ _ _ _ _ E).
  destruct e; try reflexivity. now destruct Hne.
Qed.

Lemma after_gets_cons (h : ZooLock) (c : string) (l : list string)
    (s : Sys W) :
  after_gets h (c :: l) s =
  after_gets h l
    (after_call s (CGet (own_path h c)) (snd (zk_get (own_path h c) (zk s)))).
Proof.
  unfold after_gets. simpl.
  destruct (zk_get (own_path h c) (zk s)) as [r w1]. simpl.
  destruct (get_each h l w1) as [rs w2]. simpl.
  now rewrite <- app_assoc.
Qed.

Lemma get_each_cons (h : ZooLock) (c : string) (l : list string) (w : W) :
  get_each h (c :: l) w =
  (fst (zk_get (own_path h c) w) ::
     fst (get_each h l (snd (zk_get (own_path h c) w))),
   snd (get_each h l (snd (zk_get (own_path h c) w)))).
Proof.
  simpl. destruct (zk_get (own_path h c) w) as [r w1]. simpl.
  now destruct (get_each h l w1).
Qed.

(** When every child was there or was gone at the time its value was
    asked for, the loop hands back the values that were there. *)
Lemma collect_run (h : ZooLock) (children : list string) :
  forall contenders s,
    Forall there_or_gone (fst (get_each h children (zk s))) ->
    collect_contenders (path h) children contenders s =
    (Return (contenders ++ values_of (fst (get_each h children (zk s))))%list,
     after_gets h children s).
Proof.
  induction children as [|c l IH]; intros contenders s Hok.
  - unfold after_gets. simpl. rewrite !app_nil_r. now destruct s.
  - rewrite after_gets_cons, get_each_cons. rewrite get_each_cons in Hok.
    cbn [fst] in Hok |- *.
    destruct (zk_get (own_path h c) (zk s)) as [r w1] eqn:Eg.
    cbn [fst snd] in Hok |- *.
    inversion Hok as [|? ? Hr Hrs]; subst.
    destruct r as [[d st]|e].
    + rewrite (collect_cons_done h c l contenders s d st w1 Eg).
      rewrite (IH (contenders ++ [d])%list
                  (after_call s (CGet (own_path h c)) w1) Hrs).
      cbn [zk after_call]. unfold values_of. cbn [flat_map].
      now rewrite <- app_assoc.
    + simpl in Hr. subst e.
      rewrite (collect_cons_gone h c l contenders s w1 Eg).
      now rewrite (IH contenders
                     (after_call s (CGet (own_path h c)) w1) Hrs).
Qed.

(** The loop never lets out the [NoNodeException] of a [get]. *)
Lemma collect_never_no_node (h : ZooLock) (children : list string) :
  forall contenders s,
    fst (collect_contenders (path h) children contenders s) <>
    Raise (ZkError NoNodeException).
Proof.
  induction children as [|c l IH]; intros contenders s.
  - discriminate.
  - destruct (zk_get (own_path h c) (zk s)) as [[[d st]|e] w1] eqn:Eg.
    + rewrite (collect_cons_done h c l contenders s d st w1 Eg). apply IH.
    + assert (De : e = NoNodeException \/ e <> NoNodeException)
        by (destruct e; (now left) || (right; discriminate)).
      destruct De as [->|Hne].
      * rewrite (collect_cons_gone h c l contenders s w1 Eg). apply IH.
      * rewrite (collect_cons_failed h c l contenders s e w1 Eg Hne).
        simpl. intros [= E]. contradiction.
Qed.

(** C8. [getContenders()] asks for the value of every sorted child, in the
    order of [_get_sorted_children], each [get] being served in the state
    the previous one has left. When every child was there or was gone
    (NoNode) at the time it was asked for, the values of those that were
    there are returned in that order and the others are left out; and
    whatever happens to the children after the listing, [getContenders()]
    does not raise [NoNodeException]. *)
Theorem get_contenders_skips_vanished (s s1 : Sys W) (sorted : list string) :
  _get_sorted_children s = (Return sorted, s1) ->
  let replies := fst (get_each (self s) sorted (zk s1)) in
  (Forall there_or_gone replies ->
   get_contenders s =
     (Return (values_of replies), after_gets (self s) sorted s1) /\
   self (after_gets (self s) sorted s1) = self s) /\
  fst (get_contenders s) <> Raise (ZkError NoNodeException).
Proof.
  intros Es replies.
  assert (E1 : self s1 = self s).
  { pose proof (keeps_sorted_children eq (@eq_refl _) (@eq_trans _) s) as Ek.
    rewrite Es in Ek. now symmetry. }
  assert (Eg : get_contenders s =
               collect_contenders (path (self s)) sorted [] s1).
  { unfold get_contenders, bind, get_self. now rewrite Es, E1. }
  split.
  - intros Hok. split; [|exact E1].
    rewrite Eg. exact (collect_run (self s) sorted [] s1 Hok).
  - rewrite Eg. apply collect_never_no_node.
Qed.

End Contenders.

(** alice lists the contenders; bob's node is there when the children are
    listed and goes away while alice's value is served: the list has
    alice and carol, in the order of their sequence numbers. *)
Lemma get_contenders_skips_vanished_witness :
  let sorted :=
    ["a11ce_lock_0000000001"; "0b0b_lock_0000000002";
     "ca401_lock_0000000003"] in
  let w := {| MemZk.znodes := [carol_node; alice_node; bob_node];
              MemZk.next_seq := 4;
              MemZk.script :=
                [Some (MemZk.Gone "/locks/demo/0b0b_lock_0000000002")];
              MemZk.departures := [] |} in
  let s1 := after_call bob_leaving (CGetChildren "/locks/demo") w in
  _get_sorted_children bob_leaving = (Return sorted, s1) /\
  fst (get_each alice_holding sorted w) =
    [Done ("alice", 0); Failed NoNodeException; Done ("carol", 0)] /\
  get_contenders bob_leaving =
    (Return ["alice"; "carol"], after_gets alice_holding sorted s1) /\
  zk (after_gets alice_holding sorted s1) = bob_left /\
  calls (after_gets alice_holding sorted s1) =
    [CGetChildren "/locks/demo";
     CGet "/locks/demo/a11ce_lock_0000000001";
     CGet "/locks/demo/0b0b_lock_0000000002";
     CGet "/locks/demo/ca401_lock_0000000003"].
Proof.
  intros sorted w s1.
  assert (Es : _get_sorted_children bob_leaving = (Return sorted, s1))
    by reflexivity.
  destruct (get_contenders_skips_vanished bob_leaving s1 sorted Es)
    as [Hget _].
  split; [exact Es|]. split; [reflexivity|]. split; [|split; reflexivity].
  apply Hget. repeat constructor.
Defined.

(** ** The fields of the handle over its lifetime *)

Section HandleFields.
Context {W : Type} `{ZkClient W}.

Lemma same_identity_refl (h : ZooLock) : same_identity h h.
Proof. now repeat split. Qed.

Lemma same_identity_trans (h1 h2 h3 : ZooLock) :
  same_identity h1 h2 -> same_identity h2 h3 -> same_identity h1 h3.
Proof.
  unfold same_identity. intros [A1 [B1 [C1 D1]]] [A2 [B2 [C2 D2]]].
  repeat split; congruence.
Qed.

Lemma same_identity_method (m : method) (s : Sys W) :
  same_identity (self s) (self (call_method m s)).
Proof.
  pose proof same_identity_refl as Hr.
  pose proof same_identity_trans as Ht.
  assert (H1 : forall h, same_identity h (set_create_tried true h))
    by (intros; now repeat split).
  assert (H2 : forall n h, same_identity h (set_node n h))
    by (intros; now repeat split).
  assert (H3 : forall b h, same_identity h (set_is_acquired b h))
    by (intros; now repeat split).
  destruct m; simpl.
  - now apply keeps_acquire.
  - now apply keeps_inner_acquire.
  - now apply keeps_release.
  - now apply keeps_inner_release.
  - now apply keeps_get_contenders.
  - now apply keeps_cleanup.
  - now apply keeps_find_node.
  - now apply keeps_sorted_children.
Qed.

(** X1. No method of the handle ever changes [path], [data], [prefix] or
    [create_path]: through any sequence of calls they stay what
    [__init__] made them. *)
Theorem identity_fields_never_change (ms : list method) (s : Sys W) :
  path (self (lifetime ms s)) = path (self s) /\
  data (self (lifetime ms s)) = data (self s) /\
  prefix (self (lifetime ms s)) = prefix (self s) /\
  create_path (self (lifetime ms s)) = create_path (self s).
Proof.
  change (same_identity (self s) (self (lifetime ms s))).
  revert s. induction ms as [|m ms IH]; intros s; simpl.
  - apply same_identity_refl.
  - eapply same_identity_trans; [apply same_identity_method | apply IH].
Qed.

Lemma body_step_refl (h : ZooLock) : body_step h h.
Proof. split; auto. Qed.

Lemma body_step_trans (h1 h2 h3 : ZooLock) :
  body_step h1 h2 -> body_step h2 h3 -> body_step h1 h3.
Proof.
  unfold body_step. intros [A1 [B1|[n1 B1]]] [A2 [B2|[n2 B2]]];
    split; try congruence.
  - left; congruence.
  - right; exists n2; congruence.
  - right; exists n1; congruence.
  - right; exists n2; congruence.
Qed.

End HandleFields.

(** What the acquire body does to the lock object: it only sets
    [create_tried] and stores a name. *)
Section BodyFrame.
Context {W : Type} `{ZkClient W}.
Variable R : ZooLock -> ZooLock -> Prop.
Hypothesis R_refl : forall h, R h h.
Hypothesis R_trans : forall h1 h2 h3, R h1 h2 -> R h2 h3 -> R h1 h3.
Hypothesis R_tried : forall h, R h (set_create_tried true h).
Hypothesis R_named : forall n h, R h (set_node (Some n) h).

Lemma body_keeps_acquire_node : keeps R (@acquire_node W _).
Proof.
  unfold acquire_node, create_node, client_create.
  apply keeps_bind; auto. { now apply keeps_get_self. } intros h.
  apply keeps_bind; auto.
  - destruct (create_tried h); [now apply keeps_find_node|].
    apply keeps_bind; auto; [now apply keeps_update|].
    intros; now apply keeps_ret.
  - intros found. apply keeps_bind; auto.
    + assert (Hc : keeps R
                (bind (@get_self W)
                   (fun h0 => bind (request (CCreate (create_path h0) (data h0))
                                      (zk_create (create_path h0) (data h0)))
                                (fun created =>
                                   ret (Py.slice_from created
                                          (Py.len (path h0) + 1)))))).
      { apply keeps_bind; auto; [now apply keeps_get_self|]. intros h0.
        apply keeps_bind; auto; [now apply keeps_request|].
        intros; now apply keeps_ret. }
      destruct found as [n|]; [|exact Hc].
      destruct (Py.truthy n); [now apply keeps_ret | exact Hc].
    + intros n. apply keeps_bind; auto.
      * apply keeps_update. apply R_named.
      * intros; now apply keeps_ret.
Qed.

Lemma body_keeps_inner_acquire (rounds : nat) :
  keeps R (_inner_acquire rounds).
Proof.
  unfold _inner_acquire. apply keeps_bind; auto.
  - apply body_keeps_acquire_node.
  - intros; now apply keeps_loop.
Qed.

Lemma body_keeps_retry (tries rounds : nat) :
  keeps R (retry tries (_inner_acquire rounds)).
Proof. apply keeps_retry; auto. apply body_keeps_inner_acquire. Qed.
End BodyFrame.

Section Acquired.
Context {W : Type} `{ZkClient W}.

Lemma body_step_retry (tries rounds : nat) (s : Sys W) :
  body_step (self s) (self (snd (retry tries (_inner_acquire rounds) s))).
Proof.
  apply body_keeps_retry.
  - apply body_step_refl.
  - apply body_step_trans.
  - intros h. split; auto.
  - intros n h. split; [reflexivity|]. right. now exists n.
Qed.

Lemma cleanup_self (s : Sys W) :
  self (snd (_best_effort_cleanup s)) = self s.
Proof.
  symmetry. apply (keeps_cleanup eq); [reflexivity | intros; congruence].
Qed.

Lemma inner_acquire_return_node (rounds : nat) (s : Sys W) (b : bool)
    (s' : Sys W) :
  _inner_acquire rounds s = (Return b, s') ->
  exists n, node (self s') = Some n.
Proof.
  intros Eb.
  destruct (inner_acquire_inv _ _ _ _ Eb) as [[z Ez]|[m [s1 [En El]]]];
    [discriminate|].
  destruct (loop_return_inv _ _ _ _ _ El) as [_ [Es _]].
  exists m. rewrite Es. exact (acquire_node_return_node _ _ _ En).
Qed.

(** X2. When [acquire()] does not return normally (it raises, or is still
    waiting), [is_acquired] is what it was before the call: only a
    normal return sets it. *)
Theorem acquire_sets_acquired_only_on_return (tries rounds : nat)
    (s : Sys W) (o : outcome unit) (s' : Sys W) :
  acquire tries rounds s = (o, s') ->
  o <> Return tt ->
  is_acquired (self s') = is_acquired (self s).
Proof.
  rewrite acquire_eq. pose proof (body_step_retry tries rounds s) as [Ea _].
  destruct (retry tries (_inner_acquire rounds) s) as [[b|e|] s1];
    simpl in Ea; intros [= <- <-] Hn.
  - now destruct Hn.
  - now rewrite cleanup_self.
  - exact Ea.
Qed.

Lemma acquire_keeps_invariant (tries rounds : nat) (s : Sys W) :
  acquired_has_node (self s) ->
  acquired_has_node (self (snd (acquire tries rounds s))).
Proof.
  intros Hinv. rewrite acquire_eq.
  pose proof (body_step_retry tries rounds s) as [Ea En].
  destruct (retry tries (_inner_acquire rounds) s) as [[b|e|] s1] eqn:Er;
    simpl in *.
  - intros _. apply retry_return_inv in Er as [s0 Er].
    exact (inner_acquire_return_node _ _ _ _ Er).
  - rewrite cleanup_self. intros E1. rewrite Ea in E1.
    destruct En as [En|En]; [rewrite En; auto | exact En].
  - intros E1. rewrite Ea in E1.
    destruct En as [En|En]; [rewrite En; auto | exact En].
Qed.

Lemma inner_acquire_keeps_invariant (rounds : nat) (s : Sys W) :
  acquired_has_node (self s) ->
  acquired_has_node (self (snd (_inner_acquire rounds s))).
Proof.
  intros Hinv.
  assert (Hb : body_step (self s) (self (snd (_inner_acquire rounds s)))).
  { apply body_keeps_inner_acquire.
    - apply body_step_refl.
    - apply body_step_trans.
    - intros h. split; auto.
    - intros n h. split; [reflexivity|]. right. now exists n. }
  destruct Hb as [Ea En]. intros E1. rewrite Ea in E1.
  destruct En as [En|En]; [rewrite En; auto | exact En].
Qed.

Lemma inner_release_self (s : Sys W) :
  self (snd (_inner_release s)) = self s \/
  self (snd (_inner_release s)) = released (self s).
Proof.
  destruct (is_acquired (self s)) eqn:Ea.
  - destruct (node (self s)) as [n|] eqn:En.
    + destruct (zk_delete (own_path (self s) n) (zk s)) as [[[]|e] w] eqn:Ed.
      * right. now rewrite (inner_release_done s n w Ea En Ed).
      * left. now rewrite (inner_release_failed s n e w Ea En Ed).
    + left. unfold _inner_release, bind, get_self. now rewrite Ea, En.
  - left. now rewrite (inner_release_unacquired s Ea).
Qed.

Lemma release_keeps_invariant (tries : nat) (s : Sys W) :
  acquired_has_node (self s) ->
  acquired_has_node (self (snd (release tries s))).
Proof.
  apply (retry_preserves _inner_release
           (fun s s' => acquired_has_node (self s) ->
                        acquired_has_node (self s'))); auto.
  intros s0 Hinv. destruct (inner_release_self s0) as [E|E]; rewrite E.
  - exact Hinv.
  - discriminate.
Qed.

Lemma invariant_method (m : method) (s : Sys W) :
  acquired_has_node (self s) ->
  acquired_has_node (self (call_method m s)).
Proof.
  intros Hinv.
  assert (Heq : forall A (op : M W A), keeps eq op ->
                acquired_has_node (self (snd (op s))))
    by (intros A op Hk; now rewrite <- (Hk s)).
  destruct m; simpl.
  - now apply acquire_keeps_invariant.
  - now apply inner_acquire_keeps_invariant.
  - now apply release_keeps_invariant.
  - destruct (inner_release_self s) as [E|E]; rewrite E;
      [exact Hinv | discriminate].
  - apply Heq, keeps_get_contenders; [reflexivity | intros; congruence].
  - apply Heq, keeps_cleanup; [reflexivity | intros; congruence].
  - apply Heq, keeps_find_node; [reflexivity | intros; congruence].
  - apply Heq, keeps_sorted_children; [reflexivity | intros; congruence].
Qed.

Lemma release_no_type_error (tries : nat) (s : Sys W) :
  acquired_has_node (self s) ->
  fst (release tries s) <> Raise TypeError.
Proof.
  revert s. induction tries as [|tries IH]; intros s Hinv.
  - discriminate.
  - unfold release. simpl. unfold try_except.
    destruct (_inner_release s) as [[b|e|] s1] eqn:Er; simpl;
      try discriminate.
    assert (Es : self s1 = self s).
    { apply (inner_release_failure_keeps s (Raise e) s1 Er).
      intros b. discriminate. }
    destruct (retryable e) eqn:Re.
    + apply IH. now rewrite Es.
    + simpl. intros [= ->].
      unfold _inner_release, bind, get_self in Er.
      destruct (is_acquired (self s)) eqn:Ea; simpl in Er;
        [|discriminate].
      destruct (Hinv Ea) as [n En]. rewrite En in Er.
      unfold client_delete, request in Er.
      destruct (zk_delete _ (zk s)) as [[[]|z] w]; discriminate.
Qed.

Lemma lifetime_keeps_invariant (ms : list method) (s : Sys W) :
  acquired_has_node (self s) ->
  acquired_has_node (self (lifetime ms s)).
Proof.
  revert s. induction ms as [|m ms IH]; intros s Hinv; simpl; auto.
  apply IH. now apply invariant_method.
Qed.

(** X3. A handle that is used only through its methods, from [__init__]
    on, knows the name of its node whenever it says [acquired]; so
    [release()] never fails on that handle with the [TypeError] of
    [path + "/" + None]. *)
Theorem acquired_handle_has_node (p : string) (c : option string)
    (u : string) (w : W) (ms : list method) :
  let s := lifetime ms {| self := ZooLock_init p c u; zk := w; calls := [] |} in
  acquired_has_node (self s) /\
  forall tries, fst (release tries s) <> Raise TypeError.
Proof.
  intros s.
  assert (Hinv : acquired_has_node (self s)).
  { apply lifetime_keeps_invariant. intros E. discriminate E. }
  split; [exact Hinv|]. intros tries. now apply release_no_type_error.
Qed.

End Acquired.

Lemma acquire_sets_acquired_only_on_return_witness :
  acquire 2 2 alice_lost =
    (Raise (ZkError SessionExpiredException), snd (acquire 2 2 alice_lost)) /\
  is_acquired (self (snd (acquire 2 2 alice_lost))) = false.
Proof.
  assert (E : acquire 2 2 alice_lost =
              (Raise (ZkError SessionExpiredException),
               snd (acquire 2 2 alice_lost))) by reflexivity.
  split; [exact E|].
  apply (acquire_sets_acquired_only_on_return 2 2 alice_lost _ _ E).
  discriminate.
Defined.

(** alice acquires, fails to release while her session is down, and then
    releases. *)
Lemma acquired_handle_has_node_witness :
  let w := {| MemZk.znodes := []; MemZk.next_seq := 1;
              MemZk.script := [None; None;
                               Some (MemZk.Fail SessionExpiredException)];
              MemZk.departures := [] |} in
  let s := lifetime [Acquire 1 1; Release 1]
             {| self := alice; zk := w; calls := [] |} in
  is_acquired (self s) = true /\
  (exists n, node (self s) = Some n) /\
  fst (release 1 s) = Return true.
Proof.
  intros w s.
  destruct (acquired_handle_has_node "/locks/demo" (Some "alice") "a11ce" w
              [Acquire 1 1; Release 1]) as [Hinv _].
  split; [reflexivity|]. split; [exact (Hinv eq_refl) | reflexivity].
Defined.

(** ** Entering and leaving the block *)

Section EnterExit.
Context {W : Type} `{ZkClient W}.

(** X4. When [__enter__] returns, the handle says [acquired] and holds
    the name of its node; if the delete of that node then succeeds,
    [__exit__] sends that one delete, returns [None] and leaves the handle
    released. Whatever [release()] raises, [__exit__] raises. *)
Theorem enter_then_exit (tries rounds : nat) (s s1 : Sys W) :
  __enter__ tries rounds s = (Return tt, s1) ->
  exists n,
    node (self s1) = Some n /\ is_acquired (self s1) = true /\
    (forall tries' w,
       zk_delete (own_path (self s) n) (zk s1) = (Done tt, w) ->
       __exit__ (S tries') s1 =
       (Return tt,
        with_self (released (self s1))
          (after_call s1 (CDelete (own_path (self s) n)) w))) /\
    (forall tries' e s2,
       release tries' s1 = (Raise e, s2) ->
       __exit__ tries' s1 = (Raise e, s2)).
Proof.
  unfold __enter__. intros Ea.
  pose proof (same_identity_method (Acquire tries rounds) s) as [Ep _].
  simpl in Ep. rewrite Ea in Ep. simpl in Ep.
  rewrite acquire_eq in Ea.
  destruct (retry tries (_inner_acquire rounds) s) as [[b|e|] s0] eqn:Er;
    try discriminate.
  injection Ea as <-.
  apply retry_return_inv in Er as [s' Er].
  destruct (inner_acquire_return_node _ _ _ _ Er) as [n En].
  exists n. split; [exact En|]. split; [reflexivity|]. split.
  - intros tries' w Ed. unfold __exit__, bind.
    assert (Ed' : zk_delete
                    (own_path (self (with_self (set_is_acquired true (self s0)) s0)) n)
                    (zk (with_self (set_is_acquired true (self s0)) s0))
                  = (Done tt, w)).
    { unfold own_path in *. simpl in *. now rewrite Ep. }
    unfold release.
    rewrite (retry_return _ tries' _ _ true
               (inner_release_done
                  (with_self (set_is_acquired true (self s0)) s0)
                  n w eq_refl En Ed')).
    unfold ret, own_path. simpl. simpl in Ep. now rewrite Ep.
  - intros tries' e s2 E. unfold __exit__, bind. now rewrite E.
Qed.

End EnterExit.

Lemma enter_then_exit_witness :
  let s1 := snd (__enter__ 1 1 alice_alone) in
  __enter__ 1 1 alice_alone = (Return tt, s1) /\
  exists n,
    node (self s1) = Some n /\ is_acquired (self s1) = true /\
    __exit__ 1 s1 =
      (Return tt,
       with_self (released (self s1))
         (after_call s1 (CDelete (own_path alice n)) (MemZk.holding [] 2))).
Proof.
  intros s1.
  assert (E : __enter__ 1 1 alice_alone = (Return tt, s1)) by reflexivity.
  split; [exact E|].
  destruct (enter_then_exit 1 1 alice_alone s1 E) as [n [En [Ea [Hexit _]]]].
  exists n. split; [exact En|]. split; [exact Ea|].
  apply (Hexit 0).
  assert (Hn : n = "a11ce_lock_0000000001").
  { assert (E1 : node (self s1) = Some "a11ce_lock_0000000001")
      by reflexivity.
    rewrite En in E1. now injection E1. }
  rewrite Hn. reflexivity.
Defined.

(** ** The sort key of the children *)

Lemma find_marker_after_uuid (uuid rest : string) :
  no_underscore uuid = true ->
  Py.find_opt _LOCK_NAME (uuid ++ _LOCK_NAME ++ rest) =
  Some (String.length uuid).
Proof.
  induction uuid as [|a u IH]; intros Hu.
  - rewrite find_opt_eq.
    assert (P : String.prefix _LOCK_NAME ("" ++ _LOCK_NAME ++ rest) = true)
      by (apply prefix_split; now exists rest).
    now rewrite P.
  - simpl in Hu. apply andb_prop in Hu as [Ha Hu].
    rewrite find_opt_eq.
    assert (P : String.prefix _LOCK_NAME
                  (String a u ++ _LOCK_NAME ++ rest) = false).
    { destruct (String.prefix _LOCK_NAME (String a u ++ _LOCK_NAME ++ rest))
        eqn:P; [|reflexivity].
      apply prefix_split in P as [suf E]. unfold _LOCK_NAME in E.
      simpl in E. injection E as -> _. discriminate Ha. }
    rewrite P. simpl. simpl in IH. now rewrite (IH Hu).
Qed.

(** X5. The name the service gives the node of a handle is the prefix of
    the handle followed by the sequence suffix; when the uuid has no
    underscore (as the hexadecimal form of a uuid), the sort key of that
    name is the sequence suffix alone. *)
Theorem sort_key_of_own_node (p : string) (c : option string)
    (uuid suffix : string) :
  no_underscore uuid = true ->
  sort_key (prefix (ZooLock_init p c uuid) ++ suffix) = suffix.
Proof.
  intros Hu. unfold sort_key, Py.find. simpl prefix.
  rewrite append_assoc, (find_marker_after_uuid uuid suffix Hu).
  unfold Py.slice_from, Py.len.
  replace (Z.of_nat (String.length uuid) +
           Z.of_nat (String.length _LOCK_NAME) <? 0)%Z
    with false by (symmetry; apply Z.ltb_ge; lia).
  rewrite <- Nat2Z.inj_add, Nat2Z.id, <- length_append, <- append_assoc.
  apply drop_append.
Qed.

Lemma sort_key_of_own_node_witness :
  no_underscore "a11ce" = true /\
  sort_key (prefix alice ++ "0000000001") = "0000000001".
Proof.
  split; [reflexivity|].
  exact (sort_key_of_own_node "/locks/demo" (Some "alice") "a11ce"
           "0000000001" eq_refl).
Defined.

(** X6. A child whose name does not contain the marker is sorted by its
    name from the sixth character on ([find] answers -1, and -1 plus the
    length of the marker is 5); a name of five characters or less has
    the empty key. *)
Theorem sort_key_without_marker (c : string) :
  ~ has_marker c ->
  sort_key c = Py.drop 5 c /\
  (String.length c <= 5 -> sort_key c = "").
Proof.
  intros Hn.
  assert (E : sort_key c = Py.drop 5 c).
  { unfold sort_key, Py.find.
    destruct (Py.find_opt _LOCK_NAME c) as [i|] eqn:F; [|reflexivity].
    destruct Hn. apply find_opt_some in F as [[pre [suf [E _]]] _].
    now exists pre, suf. }
  split; [exact E|]. rewrite E. clear.
  intros L.
  do 5 (destruct c as [|? c]; [reflexivity|]).
  destruct c; [reflexivity | simpl in L; lia].
Qed.

Lemma sort_key_without_marker_witness :
  ~ has_marker "config" /\
  sort_key "config" = "g" /\ sort_key "lock" = "".
Proof.
  assert (Hc : ~ has_marker "config").
  { intros [pre [suf E]]. apply (find_opt_none _ _ _ _ E). reflexivity. }
  assert (Hl : ~ has_marker "lock").
  { intros [pre [suf E]]. apply (find_opt_none _ _ _ _ E). reflexivity. }
  split; [exact Hc|]. split.
  - exact (proj1 (sort_key_without_marker "config" Hc)).
  - apply (proj2 (sort_key_without_marker "lock" Hl)). simpl. lia.
Defined.

(** ** The order of the sorted children *)

Section Stable.
Context {A : Type} (key : A -> string).

Lemma filter_insert (k : string) (x : A) (l : list A) :
  filter (fun c => String.eqb (key c) k) (Py.insert key x l) =
  filter (fun c => String.eqb (key c) k) (x :: l).
Proof.
  induction l as [|y l IH]; [reflexivity|].
  simpl Py.insert. destruct (String.leb (key x) (key y)) eqn:L;
    [reflexivity|].
  simpl. simpl in IH. rewrite IH.
  destruct (String.eqb_spec (key x) k) as [Ex|Nx]; [|reflexivity].
  destruct (String.eqb_spec (key y) k) as [Ey|Ny]; [|reflexivity].
  rewrite Ex, <- Ey, leb_refl in L. discriminate.
Qed.

Lemma filter_sort (k : string) (l : list A) :
  filter (fun c => String.eqb (key c) k) (Py.sort key l) =
  filter (fun c => String.eqb (key c) k) l.
Proof.
  induction l as [|x l IH]; [reflexivity|].
  simpl Py.sort. rewrite filter_insert. simpl. now rewrite IH.
Qed.
End Stable.

Section SortedListing.
Context {W : Type} `{ZkClient W}.

(** X7. The sort of the children is stable: the children that have the
    same sort key come out of [_get_sorted_children] in the order in
    which the service listed them, and the sorted list has as many names
    as the listing. *)
Theorem sorted_children_stable (s : Sys W) (children : list string) (w : W) :
  zk_get_children (path (self s)) (zk s) = (Done children, w) ->
  exists sorted s',
    _get_sorted_children s = (Return sorted, s') /\
    List.length sorted = List.length children /\
    forall k,
      filter (fun c => String.eqb (sort_key c) k) sorted =
      filter (fun c => String.eqb (sort_key c) k) children.
Proof.
  intros E. eexists _, _. split; [exact (get_sorted_children_done _ _ _ E)|].
  split.
  - symmetry. apply Permutation_length, sort_perm.
  - intros k. apply filter_sort.
Qed.

(** X8. [_find_node] sends one listing of [path] and leaves the handle as
    it is; it returns the first listed child whose name starts with the
    prefix of the handle, and [None] exactly when no listed child does;
    when the listing fails, it raises that failure. *)
Theorem find_node_returns_first_match (s : Sys W) :
  let h := self s in
  (forall children w,
     zk_get_children (path h) (zk s) = (Done children, w) ->
     exists found,
       _find_node s = (Return found, after_call s (list_call h) w) /\
       (forall c, found = Some c <-> first_match (prefix h) children c) /\
       (found = None <->
        forall c, In c children -> Py.startswith c (prefix h) = false)) /\
  (forall e w,
     zk_get_children (path h) (zk s) = (Failed e, w) ->
     _find_node s = (Raise (ZkError e), after_call s (list_call h) w)).
Proof.
  intros h. split.
  - intros children w E.
    exists (first_with_prefix (prefix h) children).
    split; [exact (find_node_done _ _ _ E)|]. split.
    + intros c. apply first_with_prefix_some.
    + apply first_with_prefix_none.
  - intros e w E. exact (find_node_failed _ _ _ E).
Qed.

End SortedListing.

Lemma sorted_children_stable_witness :
  let w := MemZk.holding
             [("/locks/demo/zz_lock_7", "z"); ("/locks/demo/bb_lock_3", "b");
              ("/locks/demo/aa_lock_7", "a")] 8 in
  let s := MemZk.start alice w in
  zk_get_children (path alice) w =
    (Done ["zz_lock_7"; "bb_lock_3"; "aa_lock_7"], w) /\
  _get_sorted_children s =
    (Return ["bb_lock_3"; "zz_lock_7"; "aa_lock_7"],
     after_call s (list_call alice) w) /\
  exists sorted s',
    _get_sorted_children s = (Return sorted, s') /\
    List.length sorted = 3 /\
    forall k,
      filter (fun c => String.eqb (sort_key c) k) sorted =
      filter (fun c => String.eqb (sort_key c) k)
        ["zz_lock_7"; "bb_lock_3"; "aa_lock_7"].
Proof.
  intros w s.
  assert (E : zk_get_children (path alice) w =
              (Done ["zz_lock_7"; "bb_lock_3"; "aa_lock_7"], w))
    by reflexivity.
  split; [exact E|]. split; [reflexivity|].
  exact (sorted_children_stable s _ w E).
Defined.

Lemma find_node_returns_first_match_witness :
  let w := MemZk.holding [bob_node; alice_node] 3 in
  let s := MemZk.start alice w in
  exists found,
    _find_node s = (Return found, after_call s (list_call alice) w) /\
    (forall c, found = Some c <->
       first_match (prefix alice)
         ["0b0b_lock_0000000002"; "a11ce_lock_0000000001"] c) /\
    (found = None <->
     forall c, In c ["0b0b_lock_0000000002"; "a11ce_lock_0000000001"] ->
               Py.startswith c (prefix alice) = false).
Proof.
  intros w s.
  destruct (find_node_returns_first_match s) as [Hfound _].
  exact (Hfound ["0b0b_lock_0000000002"; "a11ce_lock_0000000001"] w eq_refl).
Defined.

(** ** A failing fetch in [get_contenders] *)

Section FailingFetch.
Context {W : Type} `{ZkClient W}.

Lemma collect_fatal (h : ZooLock) (c : string) (after : list string)
    (e : zk_exn) (w2 : W) (before : list string) :
  e <> NoNodeException ->
  forall contenders s,
    Forall there_or_gone (fst (get_each h before (zk s))) ->
    zk_get (own_path h c) (snd (get_each h before (zk s))) = (Failed e, w2) ->
    collect_contenders (path h) (before ++ c :: after) contenders s =
    (Raise (ZkError e),
     after_call (after_gets h before s) (CGet (own_path h c)) w2).
Proof.
  intros Hne. induction before as [|b l IH]; intros contenders s Hok Ec.
  - simpl in Ec. cbn [app].
    rewrite (collect_cons_failed h c after contenders s e w2 Ec Hne).
    unfold after_gets, after_call. simpl. now rewrite app_nil_r.
  - rewrite after_gets_cons. rewrite get_each_cons in Hok, Ec.
    cbn [fst snd] in Hok, Ec. cbn [app].
    destruct (zk_get (own_path h b) (zk s)) as [r w1] eqn:Eg.
    cbn [fst snd] in Hok, Ec |- *.
    inversion Hok as [|? ? Hr Hrs]; subst.
    destruct r as [[d st]|e0].
    + rewrite (collect_cons_done h b (l ++ c :: after) contenders s d st w1 Eg).
      exact (IH (contenders ++ [d])%list
                (after_call s (CGet (own_path h b)) w1) Hrs Ec).
    + simpl in Hr. subst e0.
      rewrite (collect_cons_gone h b (l ++ c :: after) contenders s w1 Eg).
      exact (IH contenders (after_call s (CGet (own_path h b)) w1) Hrs Ec).
Qed.

(** X9. Only [NoNodeException] is skipped by [get_contenders]: when the
    children before [c] were there or were gone as their values were asked
    for, and the [get] of [c], served in the state these have left, fails
    with any other exception, [get_contenders] raises that exception: the
    values fetched so far are not returned and the children after [c] are
    not asked for. A listing that fails is raised as well, before any
    [get]. *)
Theorem get_contenders_raises_other_failures (s : Sys W) :
  (forall s1 before c after e w2,
     _get_sorted_children s = (Return (before ++ c :: after)%list, s1) ->
     let earlier := get_each (self s) before (zk s1) in
     Forall there_or_gone (fst earlier) ->
     zk_get (own_path (self s) c) (snd earlier) = (Failed e, w2) ->
     e <> NoNodeException ->
     get_contenders s =
       (Raise (ZkError e),
        after_call (after_gets (self s) before s1)
          (CGet (own_path (self s) c)) w2)) /\
  (forall e w,
     zk_get_children (path (self s)) (zk s) = (Failed e, w) ->
     get_contenders s =
       (Raise (ZkError e), after_call s (list_call (self s)) w)).
Proof.
  split.
  - intros s1 before c after e w2 Es earlier Hok Ec Hne.
    assert (E1 : self s1 = self s).
    { pose proof (keeps_sorted_children eq (@eq_refl _) (@eq_trans _) s) as Ek.
      rewrite Es in Ek. now symmetry. }
    unfold get_contenders, bind, get_self. rewrite Es, E1.
    exact (collect_fatal (self s) c after e w2 before Hne [] s1 Hok Ec).
  - intros e w E. unfold get_contenders, bind.
    now rewrite (get_sorted_children_failed _ _ _ E).
Qed.

End FailingFetch.

(** The connection is lost when bob's value is asked for, after alice's
    has been fetched; and the listing of a lock whose parent node is
    missing fails. *)
Lemma get_contenders_raises_other_failures_witness :
  let missing :=
    MemZk.start alice
      {| MemZk.znodes := []; MemZk.next_seq := 1;
         MemZk.script := [Some (MemZk.Fail NoNodeException)];
         MemZk.departures := [] |} in
  fst (get_each alice_holding ["a11ce_lock_0000000001"]
         (zk (snd (_get_sorted_children connection_lost)))) =
    [Done ("alice", 0)] /\
  fst (get_contenders connection_lost) =
    Raise (ZkError ConnectionLossException) /\
  calls (snd (get_contenders connection_lost)) =
    [CGetChildren "/locks/demo";
     CGet "/locks/demo/a11ce_lock_0000000001";
     CGet "/locks/demo/0b0b_lock_0000000002"] /\
  get_contenders missing =
    (Raise (ZkError NoNodeException),
     after_call missing (list_call alice) (MemZk.holding [] 1)).
Proof.
  intros missing.
  destruct (get_contenders_raises_other_failures connection_lost)
    as [Hget _].
  destruct (get_contenders_raises_other_failures missing) as [_ Hlist].
  assert (Eg : get_contenders connection_lost =
               (Raise (ZkError ConnectionLossException),
                after_call
                  (after_gets alice_holding ["a11ce_lock_0000000001"]
                     (snd (_get_sorted_children connection_lost)))
                  (CGet "/locks/demo/0b0b_lock_0000000002")
                  (MemZk.holding [alice_node; bob_node; carol_node] 4))).
  { apply (Hget (snd (_get_sorted_children connection_lost))
             ["a11ce_lock_0000000001"] "0b0b_lock_0000000002"
             ["ca401_lock_0000000003"] ConnectionLossException
             (MemZk.holding [alice_node; bob_node; carol_node] 4)).
    - reflexivity.
    - repeat constructor.
    - reflexivity.
    - discriminate. }
  split; [reflexivity|]. rewrite Eg.
  split; [reflexivity|]. split; [reflexivity|].
  exact (Hlist NoNodeException (MemZk.holding [] 1) eq_refl).
Defined.

(** ** The requests the methods send *)

Section Sends.
Context {W : Type} `{ZkClient W}.
Variable P : Call -> Prop.

Lemma sends_ret {A} (a : A) : sends P (@ret W A a).
Proof. intros s. exists []. now rewrite app_nil_r. Qed.

Lemma sends_raise {A} (e : exn) : sends P (@raise W A e).
Proof. intros s. exists []. now rewrite app_nil_r. Qed.

Lemma sends_running {A} : sends P (@running W A).
Proof. intros s. exists []. now rewrite app_nil_r. Qed.

Lemma sends_get_self : sends P (@get_self W).
Proof. intros s. exists []. now rewrite app_nil_r. Qed.

Lemma sends_update (f : ZooLock -> ZooLock) : sends P (@update_self W f).
Proof. intros s. exists []. simpl. now rewrite app_nil_r. Qed.

Lemma sends_request {A} (c : Call) (op : W -> reply A * W) :
  P c -> sends P (request c op).
Proof.
  intros Hc s. exists [c]. unfold request.
  destruct (op (zk s)) as [[a|e] w]; simpl; auto.
Qed.

Lemma sends_wait : P CWait -> sends P (@condition_wait W _).
Proof. intros Hc s. exists [CWait]. simpl. auto. Qed.

Lemma sends_bind {A B} (m : M W A) (k : A -> M W B) :
  sends P m -> (forall a, sends P (k a)) -> sends P (bind m k).
Proof.
  intros Hm Hk s. unfold bind. destruct (Hm s) as [l [El Hl]].
  destruct (m s) as [[a|e|] s1]; simpl in *; eauto.
  destruct (Hk a s1) as [l' [El' Hl']].
  exists (l ++ l')%list. rewrite El', El, app_assoc.
  split; [reflexivity | now apply Forall_app].
Qed.

Lemma sends_try_except {A} (m : M W A) (handler : exn -> M W A) :
  sends P m -> (forall e, sends P (handler e)) ->
  sends P (try_except m handler).
Proof.
  intros Hm Hh s. unfold try_except. destruct (Hm s) as [l [El Hl]].
  destruct (m s) as [[a|e|] s1]; simpl in *; eauto.
  destruct (Hh e s1) as [l' [El' Hl']].
  exists (l ++ l')%list. rewrite El', El, app_assoc.
  split; [reflexivity | now apply Forall_app].
Qed.

Lemma sends_retry {A} (op : M W A) (tries : nat) :
  sends P op -> sends P (retry tries op).
Proof.
  intros Hop. induction tries as [|tries IH]; simpl.
  - apply sends_running.
  - apply sends_try_except; [exact Hop|].
    intros e. destruct (retryable e); [exact IH | apply sends_raise].
Qed.

Hypothesis P_list : forall p, P (CGetChildren p).

Lemma sends_find_node : sends P (@_find_node W _).
Proof.
  unfold _find_node, client_get_children.
  apply sends_bind; [apply sends_get_self|]. intros h.
  apply sends_bind; [apply sends_request, P_list|].
  intros; apply sends_ret.
Qed.

Lemma sends_sorted_children : sends P (@_get_sorted_children W _).
Proof.
  unfold _get_sorted_children, client_get_children.
  apply sends_bind; [apply sends_get_self|]. intros h.
  apply sends_bind; [apply sends_request, P_list|].
  intros; apply sends_ret.
Qed.

Hypothesis P_get : forall p, P (CGet p).



Hypothesis P_exists : forall p, P (CExists p).
Hypothesis P_wait : P CWait.

Lemma sends_round (n : string) : sends P (acquire_round n).
Proof.
  unfold acquire_round, client_exists.
  apply sends_bind; [apply sends_sorted_children|]. intros children.
  destruct (Py.index n children) as [i|]; [|apply sends_raise].
  destruct (Nat.eqb i 0); [apply sends_ret|].
  apply sends_bind; [apply sends_get_self|]. intros h.
  apply sends_bind; [apply sends_request, P_exists|]. intros st.
  apply sends_bind; [|intros; apply sends_ret].
  destruct st; [apply sends_wait, P_wait | apply sends_ret].
Qed.

Lemma sends_loop (rounds : nat) (n : string) :
  sends P (acquire_loop rounds n).
Proof.
  induction rounds as [|rounds IH]; simpl.
  - apply sends_running.
  - apply sends_bind; [apply sends_round|].
    intros [b|]; [apply sends_ret | exact IH].
Qed.

Hypothesis P_create : forall p d, P (CCreate p d).

Lemma sends_inner_acquire (rounds : nat) :
  sends P (_inner_acquire rounds).
Proof.
  unfold _inner_acquire. apply sends_bind; [|intros; apply sends_loop].
  unfold acquire_node.
  assert (Hc : sends P (@create_node W _)).
  { unfold create_node, client_create.
    apply sends_bind; [apply sends_get_self|]. intros h.
    apply sends_bind; [apply sends_request, P_create|].
    intros; apply sends_ret. }
  apply sends_bind; [apply sends_get_self|]. intros h.
  apply sends_bind.
  - destruct (create_tried h); [apply sends_find_node|].
    apply sends_bind; [apply sends_update | intros; apply sends_ret].
  - intros found. apply sends_bind.
    + destruct found as [n|]; [|exact Hc].
      destruct (Py.truthy n); [apply sends_ret | exact Hc].
    + intros n. apply sends_bind; [apply sends_update|].
      intros; apply sends_ret.
Qed.
End Sends.

Section SendsProperties.
Context {W : Type} `{ZkClient W}.


(** X11. [acquire()] deletes nothing unless it fails: when it returns, or
    is still waiting, no delete is among the requests it has sent. The
    retried body never sends a delete at all. *)
Theorem acquire_deletes_only_on_failure (tries rounds : nat) (s : Sys W) :
  (exists l, calls (snd (_inner_acquire rounds s)) = (calls s ++ l)%list /\
             Forall not_delete l) /\
  (forall o s', acquire tries rounds s = (o, s') ->
     (forall e, o <> Raise e) ->
     exists l, calls s' = (calls s ++ l)%list /\ Forall not_delete l).
Proof.
  assert (Hb : forall r, sends not_delete (@_inner_acquire W _ r)).
  { intros r. apply sends_inner_acquire; intros; exact I. }
  split; [apply Hb|].
  intros o s'. rewrite acquire_eq.
  destruct (sends_retry not_delete _ tries (Hb rounds) s) as [l [El Hl]].
  destruct (retry tries (_inner_acquire rounds) s) as [[b|e|] s1];
    simpl in *; intros [= <- <-] Hn.
  - exists l. now split.
  - now destruct (Hn e).
  - exists l. now split.
Qed.

Lemma inner_release_calls (s : Sys W) :
  calls (snd (_inner_release s)) = calls s \/
  exists n,
    is_acquired (self s) = true /\ node (self s) = Some n /\
    calls (snd (_inner_release s)) =
      (calls s ++ [CDelete (own_path (self s) n)])%list.
Proof.
  destruct (is_acquired (self s)) eqn:Ea.
  - destruct (node (self s)) as [n|] eqn:En.
    + right. exists n. split; [reflexivity|]. split; [reflexivity|].
      destruct (zk_delete (own_path (self s) n) (zk s)) as [[[]|e] w] eqn:Ed.
      * now rewrite (inner_release_done s n w Ea En Ed).
      * now rewrite (inner_release_failed s n e w Ea En Ed).
    + left. unfold _inner_release, bind, get_self. now rewrite Ea, En.
  - left. now rewrite (inner_release_unacquired s Ea).
Qed.

(** X12. Every request [release()] sends is the delete of the node whose
    name the handle holds, and it sends one only when the handle says
    [acquired]: it never lists, creates, or deletes anything else. *)
Theorem release_only_deletes_own_node (tries : nat) (s : Sys W) :
  exists l,
    calls (snd (release tries s)) = (calls s ++ l)%list /\
    Forall (fun c => exists n,
              is_acquired (self s) = true /\ node (self s) = Some n /\
              c = CDelete (own_path (self s) n)) l.
Proof.
  revert s. induction tries as [|tries IH]; intros s.
  - exists []. simpl. now rewrite app_nil_r.
  - unfold release. simpl. unfold try_except.
    pose proof (inner_release_calls s) as Hc.
    destruct (_inner_release s) as [[b|e|] s1] eqn:Er; simpl in Hc.
    + destruct Hc as [Ec|[n [Ea [En Ec]]]]; simpl.
      * exists []. now rewrite app_nil_r.
      * exists [CDelete (own_path (self s) n)]. split; [exact Ec|].
        constructor; [now exists n | constructor].
    + assert (Es : self s1 = self s).
      { apply (inner_release_failure_keeps s (Raise e) s1 Er).
        intros b. discriminate. }
      destruct (retryable e).
      * destruct (IH s1) as [l [El Hl]]. unfold release in El.
        rewrite Es in Hl.
        destruct Hc as [Ec|[n [Ea [En Ec]]]].
        -- exists l. rewrite El, Ec. now split.
        -- exists (CDelete (own_path (self s) n) :: l). split.
           ++ rewrite El, Ec, <- app_assoc. reflexivity.
           ++ constructor; [now exists n | exact Hl].
      * simpl. destruct Hc as [Ec|[n [Ea [En Ec]]]].
        -- exists []. now rewrite app_nil_r.
        -- exists [CDelete (own_path (self s) n)]. split; [exact Ec|].
           constructor; [now exists n | constructor].
    + simpl. destruct Hc as [Ec|[n [Ea [En Ec]]]].
      * exists []. now rewrite app_nil_r.
      * exists [CDelete (own_path (self s) n)]. split; [exact Ec|].
        constructor; [now exists n | constructor].
Qed.

End SendsProperties.

Lemma acquire_deletes_only_on_failure_witness :
  let s' := snd (acquire 3 2 alice_reaped) in
  acquire 3 2 alice_reaped = (Return tt, s') /\
  exists l, calls s' = l /\ Forall not_delete l.
Proof.
  intros s'.
  assert (E : acquire 3 2 alice_reaped = (Return tt, s')) by reflexivity.
  split; [exact E|].
  destruct (acquire_deletes_only_on_failure 3 2 alice_reaped) as [_ Hacq].
  apply (Hacq (Return tt) s' E). discriminate.
Defined.

(** ** A create whose answer is lost *)

Section LostCreate.
Context {W : Type} `{ZkClient W}.

(** X13. When the first create of a handle fails with a transient
    failure, the body raises it with [create_tried] already set, the
    executor runs the body again, and that run lists the children
    instead of creating: if the node is there (the create had been
    carried out), its name is taken and the waiting loop starts, with one
    create sent in all. *)
Theorem lost_create_is_rediscovered (s : Sys W) (e : zk_exn)
    (children : list string) (c : string) (w1 w2 : W) :
  let h := self s in
  create_tried h = false ->
  prefix h <> "" ->
  retryable (ZkError e) = true ->
  zk_create (create_path h) (data h) (zk s) = (Failed e, w1) ->
  zk_get_children (path h) w1 = (Done children, w2) ->
  first_match (prefix h) children c ->
  let s1 :=
    after_call (with_self (set_create_tried true h) s) (create_call h) w1 in
  let s2 := named c (after_call s1 (list_call h) w2) in
  forall tries rounds,
    _inner_acquire rounds s = (Raise (ZkError e), s1) /\
    retry (S (S tries)) (_inner_acquire rounds) s =
      retry (S tries) (_inner_acquire rounds) s1 /\
    _inner_acquire rounds s1 = acquire_loop rounds c s2 /\
    calls s2 = (calls s ++ [create_call h; list_call h])%list.
Proof.
  intros h Et Hne Hr Ec El Hc s1 s2 tries rounds.
  assert (E1 : _inner_acquire rounds s = (Raise (ZkError e), s1)).
  { unfold _inner_acquire, bind.
    rewrite (acquire_node_first s Et). unfold creating.
    now rewrite (create_node_failed
                   (with_self (set_create_tried true (self s)) s) e w1 Ec). }
  assert (Ef : first_with_prefix (prefix h) children = Some c)
    by now apply first_with_prefix_some.
  assert (Ht : Py.truthy c = true).
  { destruct Hc as [b [a [_ [P _]]]]. eapply startswith_truthy; eauto. }
  split; [exact E1|]. split; [|split].
  - exact (retry_again _ (S tries) s s1 (ZkError e) E1 Hr).
  - unfold _inner_acquire, bind.
    now rewrite (acquire_node_found s1 children w2 c eq_refl El Ef Ht).
  - simpl. now rewrite <- app_assoc.
Qed.

End LostCreate.

(** alice's create is carried out but the connection is lost before the
    answer; on the second run she finds her node and holds the lock. *)
Lemma lost_create_is_rediscovered_witness :
  let s := MemZk.start alice
             {| MemZk.znodes := []; MemZk.next_seq := 1;
                MemZk.script := [Some (MemZk.Lost ConnectionLossException)];
                MemZk.departures := [] |} in
  let w := MemZk.holding [alice_node] 2 in
  let s1 :=
    after_call (with_self (set_create_tried true alice) s)
      (create_call alice) w in
  let s2 := named "a11ce_lock_0000000001" (after_call s1 (list_call alice) w) in
  _inner_acquire 2 s = (Raise (ZkError ConnectionLossException), s1) /\
  retry 2 (_inner_acquire 2) s = retry 1 (_inner_acquire 2) s1 /\
  _inner_acquire 2 s1 = acquire_loop 2 "a11ce_lock_0000000001" s2 /\
  calls s2 = [create_call alice; list_call alice] /\
  fst (acquire 2 2 s) = Return tt /\
  MemZk.znodes (zk (snd (acquire 2 2 s))) = [alice_node].
Proof.
  intros s w s1 s2.
  destruct (lost_create_is_rediscovered s ConnectionLossException
              ["a11ce_lock_0000000001"] "a11ce_lock_0000000001" w w)
    with (tries := 0) (rounds := 2) as [E1 [E2 [E3 E4]]];
    try reflexivity.
  - discriminate.
  - exists [], []. split; [reflexivity|]. split; [reflexivity|].
    intros x [].
  - split; [exact E1|]. split; [exact E2|]. split; [exact E3|].
    split; [exact E4|]. split; reflexivity.
Defined.

(** ** A node that has vanished *)

Section Vanished.
Context {W : Type} `{ZkClient W}.

Lemma acquire_node_sets_tried (s : Sys W) :
  create_tried (self (snd (acquire_node s))) = true.
Proof.
  destruct (create_tried (self s)) eqn:Et.
  - pose proof (keeps_acquire_node tried_kept tried_kept_refl
                  tried_kept_trans
                  (fun h => or_intror eq_refl)
                  (fun n h => or_introl eq_refl) s) as [E|E]; congruence.
  - rewrite (acquire_node_first s Et). now rewrite creating_self.
Qed.

Lemma inner_acquire_sets_tried (rounds : nat) (s : Sys W) :
  create_tried (self (snd (_inner_acquire rounds s))) = true.
Proof.
  unfold _inner_acquire, bind. pose proof (acquire_node_sets_tried s) as Et.
  destruct (acquire_node s) as [[n|e|] s1]; simpl in *; auto.
  pose proof (keeps_loop eq (@eq_refl _) (@eq_trans _) rounds n s1) as Ek.
  now rewrite <- Ek.
Qed.

(** X19. When the body has raised [ForceRetryError] (the node of the
    handle is gone), the executor runs the body again with
    [create_tried] set; that run lists the children, and when none of
    them starts with the prefix it creates a new node and goes on
    waiting under the new name. *)
Theorem vanished_node_is_recreated (rounds : nat) (s s1 : Sys W)
    (children : list string) (created : string) (w1 w2 : W) :
  _inner_acquire rounds s = (Raise ForceRetryError, s1) ->
  let h := self s1 in
  zk_get_children (path h) (zk s1) = (Done children, w1) ->
  (forall c, In c children -> Py.startswith c (prefix h) = false) ->
  zk_create (create_path h) (data h) w1 = (Done created, w2) ->
  let n := Py.slice_from created (Py.len (path h) + 1) in
  create_tried h = true /\
  (forall tries,
     retry (S (S tries)) (_inner_acquire rounds) s =
     retry (S tries) (_inner_acquire rounds) s1) /\
  _inner_acquire rounds s1 =
    acquire_loop rounds n
      (named n (after_call (after_call s1 (list_call h) w1)
                  (create_call h) w2)).
Proof.
  intros Eb h El Hn Ec n.
  assert (Et : create_tried h = true).
  { pose proof (inner_acquire_sets_tried rounds s) as Et.
    now rewrite Eb in Et. }
  split; [exact Et|]. split.
  - intros tries.
    exact (retry_again _ (S tries) s s1 ForceRetryError Eb eq_refl).
  - assert (Ef : Py.truthy_opt (first_with_prefix (prefix h) children) = false)
      by (apply first_with_prefix_none in Hn; now rewrite Hn).
    subst n h. unfold _inner_acquire, bind.
    rewrite (acquire_node_missing s1 children w1 Et El Ef). unfold creating.
    now rewrite (create_node_done (after_call s1 (list_call (self s1)) w1)
                   created w2 Ec).
Qed.

End Vanished.

(** alice's node is reaped after her create; her second run creates the
    node with the next sequence number. *)
Lemma vanished_node_is_recreated_witness :
  let s1 := snd (_inner_acquire 2 alice_reaped) in
  let w := MemZk.holding [] 2 in
  let w' := MemZk.holding [("/locks/demo/a11ce_lock_0000000002", "alice")] 3 in
  _inner_acquire 2 alice_reaped = (Raise ForceRetryError, s1) /\
  create_tried (self s1) = true /\
  (forall tries,
     retry (S (S tries)) (_inner_acquire 2) alice_reaped =
     retry (S tries) (_inner_acquire 2) s1) /\
  _inner_acquire 2 s1 =
    acquire_loop 2 "a11ce_lock_0000000002"
      (named "a11ce_lock_0000000002"
         (after_call (after_call s1 (list_call alice) w)
            (create_call alice) w')).
Proof.
  intros s1 w w'.
  assert (E : _inner_acquire 2 alice_reaped = (Raise ForceRetryError, s1))
    by reflexivity.
  split; [exact E|].
  apply (vanished_node_is_recreated 2 alice_reaped s1 []
           "/locks/demo/a11ce_lock_0000000002" w w' E).
  - reflexivity.
  - intros c [].
  - reflexivity.
Defined.

(** ** The error table and the callbacks of the client *)

Import zkclient.

Lemma dict_get_in {V : Type} (d : list (Z * V)) (k : Z) (v : V) :
  dict_get d k = Some v -> In (k, v) d.
Proof.
  induction d as [|[k' v'] d IH]; simpl; [discriminate|].
  destruct (dict_get d k) as [v0|].
  - intros [= <-]. right. now apply IH.
  - destruct (Z.eqb_spec k' k) as [->|N]; [|discriminate].
    intros [= <-]. now left.
Qed.

Lemma dict_get_none {V : Type} (d : list (Z * V)) (k : Z) :
  dict_get d k = None <-> ~ In k (map fst d).
Proof.
  induction d as [|[k' v'] d IH]; simpl.
  - split; auto.
  - destruct (dict_get d k) as [v0|].
    + split; [discriminate|]. intros Hn. exfalso.
      assert (Hd : ~ In k (map fst d)) by (intros Hin; apply Hn; now right).
      apply IH in Hd. discriminate.
    + destruct (Z.eqb_spec k' k) as [->|N].
      * split; [discriminate|]. intros Hn. destruct Hn. now left.
      * split; [|reflexivity]. intros _ [E|Hin]; [contradiction|].
        now apply (proj1 IH).
Qed.

Lemma dict_get_nodup {V : Type} (d : list (Z * V)) (k : Z) (v : V) :
  NoDup (map fst d) -> In (k, v) d -> dict_get d k = Some v.
Proof.
  induction d as [|[k' v'] d IH]; simpl; [now intros _ []|].
  intros Hnd Hin. inversion Hnd as [|? ? Hk Hd]; subst.
  destruct Hin as [[= -> ->]|Hin].
  - assert (E : dict_get d k = None) by now apply dict_get_none.
    now rewrite E, Z.eqb_refl.
  - now rewrite (IH Hd Hin).
Qed.

Section Table.
Variable z : zookeeper.

Lemma err_to_exception_none (code : Z) (msg : option string) :
  err_to_exception z code msg = None <->
  code = OK z /\ ~ In code (map fst (_ERR_TO_EXCEPTION z)).
Proof.
  unfold err_to_exception.
  destruct (dict_get (_ERR_TO_EXCEPTION z) code) as [cls|] eqn:E.
  - split; [discriminate|]. intros [_ Hn].
    apply dict_get_none in Hn. congruence.
  - apply dict_get_none in E.
    destruct (Z.eqb_spec code (OK z)); split; try discriminate; auto.
    now intros [].
Qed.

Lemma err_to_exception_class (code : Z) (msg : option string)
    (cls : zk_exn) (m : string) :
  err_to_exception z code msg = Some (cls, m) ->
  In (code, cls) (_ERR_TO_EXCEPTION z) \/ cls = OtherException.
Proof.
  unfold err_to_exception.
  destruct (dict_get (_ERR_TO_EXCEPTION z) code) as [c|] eqn:E.
  - intros [= <- _]. left. now apply dict_get_in.
  - destruct (Z.eqb code (OK z)); [discriminate|].
    intros [= <- _]. now right.
Qed.

Lemma err_to_exception_not_ok (code : Z) (msg : option string) :
  code <> OK z -> err_to_exception z code msg <> None.
Proof.
  intros Hne E. apply err_to_exception_none in E as [E _]. contradiction.
Qed.

(** X14. [err_to_exception]: when the codes of the table are pairwise
    distinct, a code of the table gives the exception class written next
    to it; a code that is not in the table and is not [OK] gives the
    generic exception; and [None] is returned exactly for [OK] when [OK]
    is not a code of the table. *)
Theorem err_to_exception_table (code : Z) (msg : option string) :
  (NoDup (map fst (_ERR_TO_EXCEPTION z)) ->
   forall cls, In (code, cls) (_ERR_TO_EXCEPTION z) ->
     exists m, err_to_exception z code msg = Some (cls, m)) /\
  (~ In code (map fst (_ERR_TO_EXCEPTION z)) -> code <> OK z ->
   exists m, err_to_exception z code msg = Some (OtherException, m)) /\
  (err_to_exception z code msg = None <->
   code = OK z /\ ~ In code (map fst (_ERR_TO_EXCEPTION z))).
Proof.
  split; [|split].
  - intros Hnd cls Hin. unfold err_to_exception.
    rewrite (dict_get_nodup _ _ _ Hnd Hin). eauto.
  - intros Hn Hne. apply dict_get_none in Hn. unfold err_to_exception.
    rewrite Hn. destruct (Z.eqb_spec code (OK z)); [contradiction | eauto].
  - apply err_to_exception_none.
Qed.

(** X15. [_generic_callback] sets an exception exactly when the code is
    not [OK], and the exception it sets is never [None]; with [OK] it sets
    [None] for no argument, the argument itself for one, and the tuple of
    the arguments for more. *)
Theorem generic_callback_sets {V : Type} (code : Z) (args : list V) :
  (code <> OK z ->
   exists e m, _generic_callback z code args = SetException (Some (e, m))) /\
  (code = OK z ->
   exists r, _generic_callback z code args = Set_ r /\
     match args with
     | [] => r = PNone
     | [a] => r = PValue a
     | _ => r = PTuple args
     end).
Proof.
  unfold _generic_callback. split.
  - intros Hne. destruct (Z.eqb_spec code (OK z)); [contradiction|]. simpl.
    destruct (err_to_exception z code None) as [[e m]|] eqn:E; eauto.
    now apply err_to_exception_not_ok in E.
  - intros ->. rewrite Z.eqb_refl. simpl. eexists. split; [reflexivity|].
    destruct args as [|a [|b l]]; reflexivity.
Qed.

(** X16. [_exists_callback] sets the stat it is given both for [OK] and
    for [NONODE], so that [exists] answers instead of raising when the
    node is absent; for every other code it sets an exception, and that
    exception is never [NoNodeException]. *)
Theorem exists_callback_never_no_node {S : Type} (code : Z) (stat : S) :
  (code = OK z \/ code = NONODE z -> _exists_callback z code stat = Set_ stat) /\
  (code <> OK z -> code <> NONODE z ->
   exists e m,
     _exists_callback z code stat = SetException (Some (e, m)) /\
     e <> NoNodeException).
Proof.
  unfold _exists_callback. split.
  - intros [->| ->]; rewrite Z.eqb_refl; [reflexivity|].
    now rewrite orb_true_r.
  - intros H1 H2.
    destruct (Z.eqb_spec code (OK z)); [contradiction|].
    destruct (Z.eqb_spec code (NONODE z)); [contradiction|]. simpl.
    destruct (err_to_exception z code None) as [[e m]|] eqn:E.
    + exists e, m. split; [reflexivity|]. intros ->.
      apply err_to_exception_class in E as [Hin|E]; [|discriminate].
      simpl in Hin.
      repeat (destruct Hin as [Hin|Hin]; [try discriminate Hin|]);
        try contradiction.
      injection Hin as Hin. congruence.
    + now apply err_to_exception_not_ok in E.
Qed.

(** X17. [close()] on a connected client leaves it without handle and
    not connected whether the closing succeeds or fails; it raises exactly
    when the code of the closing is not [OK], never the [TypeError] of
    raising [None]; and on a client that is not connected it does
    nothing. *)
Theorem close_always_disconnects (c : ZooKeeperClient) :
  _connected (snd (close z c)) = false /\
  (_connected c = true ->
   _handle (snd (close z c)) = None /\
   (fst (close z c) = Normal <-> zoo_close z (_handle c) = OK z) /\
   fst (close z c) <> RaisesTypeError) /\
  (_connected c = false -> close z c = (Normal, c)) /\
  close z (snd (close z c)) = (Normal, snd (close z c)).
Proof.
  unfold close. destruct (_connected c) eqn:Ec.
  - destruct (Z.eqb_spec (zoo_close z (_handle c)) (OK z)) as [E|N]; simpl.
    + repeat split; auto; discriminate.
    + destruct (err_to_exception z (zoo_close z (_handle c)) None)
        as [[e m]|] eqn:Ee.
      * simpl. repeat split; auto; try discriminate. contradiction.
      * now apply err_to_exception_not_ok in Ee.
  - simpl. rewrite Ec. repeat split; auto; discriminate.
Qed.

(** X18. When the two creation flags have no bit in common, each of them
    can be read off the flags that [create_async] passes, whatever the
    other is: the ephemeral bit is there exactly when [ephemeral] was
    asked for, and the same for the sequence bit. *)
Theorem create_flags_bits (ephemeral sequence : bool) :
  Z.land (EPHEMERAL z) (SEQUENCE z) = 0%Z ->
  Z.land (create_flags z ephemeral sequence) (EPHEMERAL z) =
    (if ephemeral then EPHEMERAL z else 0%Z) /\
  Z.land (create_flags z ephemeral sequence) (SEQUENCE z) =
    (if sequence then SEQUENCE z else 0%Z).
Proof.
  intros Hd. assert (Hd' : Z.land (SEQUENCE z) (EPHEMERAL z) = 0%Z)
    by now rewrite Z.land_comm.
  unfold create_flags.
  destruct ephemeral, sequence; simpl;
    rewrite ?Z.land_lor_distr_l, ?Z.land_diag, ?Hd, ?Hd',
      ?Z.lor_0_r, ?Z.lor_0_l; auto.
Qed.

End Table.

Lemma err_to_exception_table_witness :
  NoDup (map fst (_ERR_TO_EXCEPTION zookeeper_h)) /\
  (exists m, err_to_exception zookeeper_h (-101) (Some "/locks/demo") =
             Some (NoNodeException, m)) /\
  err_to_exception zookeeper_h (-101) (Some "/locks/demo") =
    Some (NoNodeException, "no node: /locks/demo") /\
  (exists m, err_to_exception zookeeper_h (-9) None =
             Some (OtherException, m)).
Proof.
  assert (Hnd : NoDup (map fst (_ERR_TO_EXCEPTION zookeeper_h))).
  { simpl. repeat (constructor; [simpl; intuition discriminate|]).
    constructor. }
  destruct (err_to_exception_table zookeeper_h (-101) (Some "/locks/demo"))
    as [Hin _].
  destruct (err_to_exception_table zookeeper_h (-9) None) as [_ [Hout _]].
  split; [exact Hnd|]. split; [|split; [reflexivity|]].
  - apply (Hin Hnd NoNodeException). simpl. tauto.
  - apply Hout; [|discriminate]. simpl. intuition discriminate.
Defined.

Lemma generic_callback_sets_witness :
  (exists e m, _generic_callback zookeeper_h (-4) [1; 2] =
               SetException (Some (e, m))) /\
  (exists r, _generic_callback zookeeper_h 0 [1; 2] = Set_ r /\
             r = PTuple [1; 2]).
Proof.
  destruct (generic_callback_sets zookeeper_h (-4)%Z [1; 2]) as [Hne _].
  destruct (generic_callback_sets zookeeper_h 0%Z [1; 2]) as [_ Hok].
  split; [apply Hne; discriminate | apply Hok; reflexivity].
Defined.

Lemma exists_callback_never_no_node_witness :
  _exists_callback zookeeper_h (-101) (@None nat) = Set_ None /\
  (exists e m,
     _exists_callback zookeeper_h (-4) (@None nat) =
       SetException (Some (e, m)) /\
     e <> NoNodeException).
Proof.
  destruct (exists_callback_never_no_node zookeeper_h (-101)%Z (@None nat))
    as [Hset _].
  destruct (exists_callback_never_no_node zookeeper_h (-4)%Z (@None nat))
    as [_ Hexc].
  split; [apply Hset; now right | apply Hexc; discriminate].
Defined.

Lemma close_always_disconnects_witness :
  let c := {| _handle := Some 7%Z; _connected := true |} in
  _handle (snd (close zookeeper_h c)) = None /\
  (fst (close zookeeper_h c) = Normal <->
   zoo_close zookeeper_h (Some 7%Z) = OK zookeeper_h) /\
  fst (close zookeeper_h c) <> RaisesTypeError /\
  fst (close zookeeper_h c) = Raises ConnectionLossException "connection loss".
Proof.
  intros c.
  destruct (close_always_disconnects zookeeper_h c) as [_ [Hc _]].
  destruct (Hc eq_refl) as [H1 [H2 H3]].
  split; [exact H1|]. split; [exact H2|]. split; [exact H3 | reflexivity].
Defined.

Lemma create_flags_bits_witness :
  Z.land (EPHEMERAL zookeeper_h) (SEQUENCE zookeeper_h) = 0%Z /\
  Z.land (create_flags zookeeper_h true true) (EPHEMERAL zookeeper_h) = 1%Z /\
  Z.land (create_flags zookeeper_h true true) (SEQUENCE zookeeper_h) = 2%Z.
Proof.
  split; [reflexivity|].
  exact (create_flags_bits zookeeper_h true true eq_refl).
Defined.
